(** * Distributor permission engine: a shallow embedding of main.go

    The Go program keeps a forest of distributors, each carrying an include
    and an exclude rule set keyed by region code, and answers whether a
    distributor may operate in a region.  This file embeds the permission
    engine ([isSubregion], [HasPermission], [AddPermission]), the system
    facade ([AddDistributor], [AddPermission], [CheckPermission],
    [ValidateRegion]), the loading of the catalog ([LoadLocationData]), the
    persisted state ([LoadState], [SaveState]) and the command line
    ([ListDistributors], [main]), and proves the properties stated about
    them. *)

From stdpp Require Import gmap strings list fin_maps.
From Stdlib Require Import ZArith Ascii.

#[local] Set Warnings "-clear-no-such-hyp".

Local Open Scope string_scope.
Local Open Scope list_scope.
Local Open Scope Z_scope.

(** ** Results of running Go code *)

(** A Go run-time panic that the embedded code can raise. *)
Inductive panic :=
  | IndexOutOfRange        (* slice index outside [0, len) *)
  | NilDereference.        (* field access through an invalid pointer *)

(** What one call yields: a value, a panic, or no answer within the call
    budget given to the model (unbounded recursion in the program). *)
Inductive outcome (A : Type) :=
  | Ret (a : A)
  | Panic (p : panic)
  | OutOfFuel.
Arguments Ret {A} a.
Arguments Panic {A} p.
Arguments OutOfFuel {A}.

#[global] Instance outcome_ret : MRet outcome := @Ret.
#[global] Instance outcome_bind : MBind outcome := fun A B f m =>
  match m with
  | Ret a => f a
  | Panic p => Panic p
  | OutOfFuel => OutOfFuel
  end.

(** ** Strings and slices *)

(** [len(s)] of a slice, a Go [int]. *)
Definition len {A} (s : list A) : Z := Z.of_nat (length s).

(** [s[i]] on a slice: panics outside [0, len(s)). *)
Definition index {A} (s : list A) (i : Z) : outcome A :=
  if (0 <=? i) && (i <? len s) then
    match s !! Z.to_nat i with
    | Some x => Ret x
    | None => Panic IndexOutOfRange
    end
  else Panic IndexOutOfRange.

(** [strings.Split(s, sep)] for a one-byte separator: the pieces of [s]
    between the occurrences of [sep]; one more piece than occurrences. *)
Fixpoint Split (s : string) (sep : ascii) : list string :=
  match s with
  | EmptyString => [EmptyString]
  | String c rest =>
      if Ascii.eqb c sep then EmptyString :: Split rest sep
      else match Split rest sep with
           | piece :: pieces => String c piece :: pieces
           | [] => [String c EmptyString]
           end
  end.

Definition hyphen : ascii := "-"%char.

(** Go's [a == b] on two string-valued expressions, evaluated left to right. *)
Definition str_eq (a b : outcome string) : outcome bool :=
  x ← a; y ← b; Ret (String.eqb x y).

(** Go's short-circuit [a && b]. *)
Definition and_then (a b : outcome bool) : outcome bool :=
  x ← a; if x : bool then b else Ret false.
Infix "&&&" := and_then (at level 40, left associativity).

(** ** Region containment *)

Definition isSubregion (region1 region2 : list string) : outcome bool :=
  (* If region2 is a country code *)
  if len region2 =? 1 then
    str_eq (index region1 (len region1 - 1)) (index region2 0)
  (* If region2 is a province-country code *)
  else if len region2 =? 2 then
    Ret (len region1 >=? 2) &&&
    str_eq (index region1 (len region1 - 2)) (index region2 0) &&&
    str_eq (index region1 (len region1 - 1)) (index region2 1)
  (* If region2 is a city-province-country code *)
  else if len region2 =? 3 then
    Ret (len region1 =? 3) &&&
    str_eq (index region1 0) (index region2 0) &&&
    str_eq (index region1 1) (index region2 1) &&&
    str_eq (index region1 2) (index region2 2)
  else Ret false.

(** ** Data model *)

Record Location := {
  CityCode : string;
  ProvinceCode : string;
  CountryCode : string;
  CityName : string;
  ProvinceName : string;
  CountryName : string;
}.

(** A [*Distributor]: an address in the heap of distributor objects. *)
Abbreviation ptr := nat.

(** The [Distributor] struct.  [Parent] is [None] for Go's [nil].  The two
    rule maps belong to one distributor each and are held by value; they are
    the maps [NewDistributor] makes, never [nil].  The [Locations] map is the
    catalog of the system, never written after it is loaded, and is held by
    value as well. *)
Record Distributor := {
  Name : string;
  Parent : option ptr;
  Includes : gmap string bool;
  Excludes : gmap string bool;
  Locations : gmap string Location;
}.

(** The distributor objects allocated so far; a pointer is a position. *)
Abbreviation Heap := (list Distributor).

Definition NewDistributor (name : string) (parent : option ptr) : Distributor :=
  {| Name := name; Parent := parent;
     Includes := ∅; Excludes := ∅; Locations := ∅ |}.

(** [d.f] through a pointer. *)
Definition deref (h : Heap) (d : ptr) : outcome Distributor :=
  match h !! d with
  | Some dist => Ret dist
  | None => Panic NilDereference
  end.

(** ** Calls that are observed *)

Inductive event :=
  | CallHasPermission (d : ptr) (region : string).

(** A run: the calls of [HasPermission] entered, in order, and the outcome. *)
Definition run (A : Type) : Type := list event * outcome A.

#[global] Instance run_ret : MRet run := fun A a => ([], Ret a).
#[global] Instance run_bind : MBind run := fun A B f m =>
  match m with
  | (t, Ret a) => let '(t', o) := f a in (t ++ t', o)
  | (t, Panic p) => (t, Panic p)
  | (t, OutOfFuel) => (t, OutOfFuel)
  end.

Definition emit (e : event) : run unit := ([e], Ret tt).
Definition pure_run {A} (o : outcome A) : run A := ([], o).

(** ** Authorization evaluation *)

(** The two [range] statements of [HasPermission]. *)
Inductive loop := OverExcludes | OverIncludes.

(** The order in which [for k := range m] visits the keys of [m].  Go leaves
    it unspecified and may change it from one loop to the next, so it is a
    parameter of the evaluation: one choice for each loop executed, the loop
    being told by the call depth still available and by which of the two it
    is. *)
Definition range_order := nat → loop → gmap string bool → list string.

(** Every key is visited once. *)
Definition range_ok (ord : range_order) : Prop :=
  ∀ n l m, ord n l m ≡ₚ (map_to_list m).*1.

(** The first loop of [HasPermission]: [Some false] when the function
    returns from inside the loop, [None] when the loop runs to its end. *)
Fixpoint check_excludes (parts : list string) (keys : list string)
  : outcome (option bool) :=
  match keys with
  | [] => Ret None
  | excluded :: keys' =>
      let excludedParts := Split excluded hyphen in
      b ← isSubregion parts excludedParts;
      if b : bool then Ret (Some false) else check_excludes parts keys'
  end.

(** The second loop; [on_match] is the body run at the first match. *)
Fixpoint check_includes (parts : list string) (on_match : run bool)
    (keys : list string) : run (option bool) :=
  match keys with
  | [] => mret None
  | included :: keys' =>
      let includedParts := Split included hyphen in
      b ← pure_run (isSubregion parts includedParts);
      if b : bool then r ← on_match; mret (Some r)
      else check_includes parts on_match keys'
  end.

Section Engine.
Variable ord : range_order.

(** [d.HasPermission(region)]; [fuel] bounds the depth of nested calls. *)
Fixpoint HasPermission (fuel : nat) (h : Heap) (d : ptr) (region : string)
  : run bool :=
  match fuel with
  | O => ([], OutOfFuel)
  | S fuel' =>
      _ ← emit (CallHasPermission d region);
      dist ← pure_run (deref h d);
      let parts := Split region hyphen in
      (* Check excludes first *)
      r ← pure_run (check_excludes parts (ord fuel' OverExcludes (Excludes dist)));
      match r with
      | Some b => mret b
      | None =>
          (* Check includes *)
          r ← check_includes parts
                (match Parent dist with
                 | Some p => HasPermission fuel' h p region
                 | None => mret true
                 end)
                (ord fuel' OverIncludes (Includes dist));
          match r with
          | Some b => mret b
          | None => mret false
          end
      end
  end.
End Engine.

(** ** Rule mutation *)

(** A Go [error]: [None] is [nil], [Some msg] an error built by
    [fmt.Errorf] whose text is [msg]. *)
Definition error := option string.

Definition set_Includes (m : gmap string bool) (dist : Distributor) : Distributor :=
  {| Name := Name dist; Parent := Parent dist;
     Includes := m; Excludes := Excludes dist; Locations := Locations dist |}.

Definition set_Excludes (m : gmap string bool) (dist : Distributor) : Distributor :=
  {| Name := Name dist; Parent := Parent dist;
     Includes := Includes dist; Excludes := m; Locations := Locations dist |}.

Definition set_Locations (m : gmap string Location) (dist : Distributor) : Distributor :=
  {| Name := Name dist; Parent := Parent dist;
     Includes := Includes dist; Excludes := Excludes dist; Locations := m |}.

(** [d.AddPermission(permission, isInclude)]: the heap after the call and
    the error returned. *)
Definition AddPermission (ord : range_order) (fuel : nat) (h : Heap) (d : ptr)
    (permission : string) (isInclude : bool) : run (Heap * error) :=
  dist ← pure_run (deref h d);
  rejected ← match Parent dist with
             | Some p =>
                 (* Verify permission is valid with respect to parent *)
                 ok ← HasPermission ord fuel h p permission;
                 mret (negb ok)
             | None => mret false
             end;
  if rejected : bool then
    mret (h, Some ("parent distributor does not have permission for: " +:+ permission))
  else if isInclude then
    mret (<[d := set_Includes (<[permission := true]> (Includes dist)) dist]> h, None)
  else
    mret (<[d := set_Excludes (<[permission := true]> (Excludes dist)) dist]> h, None).

(** ** The system facade *)

Module System.

(** The [DistributionSystem] struct; the distributor objects its map points
    to live in the [Heap] that every operation takes next to it. *)
Record DistributionSystem := {
  distributors : gmap string ptr;
  locations : gmap string Location;
}.

Definition NewDistributionSystem : DistributionSystem :=
  {| distributors := ∅; locations := ∅ |}.

(** [ds.ValidateRegion(region)]: a region code exists iff it is a key of
    the catalog. *)
Definition ValidateRegion (ds : DistributionSystem) (region : string) : bool :=
  match locations ds !! region with
  | Some _ => true
  | None => false
  end.

(** The tail of [AddDistributor], once [parent] is resolved: allocate the
    node and enter it in the map. *)
Definition register (h : Heap) (ds : DistributionSystem) (name : string)
    (parent : option ptr) : Heap * DistributionSystem * error :=
  let distributor := set_Locations (locations ds) (NewDistributor name parent) in
  let p : ptr := length h in
  (h ++ [distributor],
   {| distributors := <[name := p]> (distributors ds); locations := locations ds |},
   None).

(** [ds.AddDistributor(name, parentName)]. *)
Definition AddDistributor (h : Heap) (ds : DistributionSystem)
    (name parentName : string) : Heap * DistributionSystem * error :=
  match distributors ds !! name with
  | Some _ => (h, ds, Some ("distributor " +:+ name +:+ " already exists"))
  | None =>
      if negb (String.eqb parentName "") then
        match distributors ds !! parentName with
        | None =>
            (h, ds, Some ("parent distributor " +:+ parentName +:+ " does not exist"))
        | Some parent => register h ds name (Some parent)
        end
      else register h ds name None
  end.

(** [ds.AddPermission(distributorName, region, isInclude)]. *)
Definition AddPermission (ord : range_order) (fuel : nat) (h : Heap)
    (ds : DistributionSystem) (distributorName region : string)
    (isInclude : bool) : run (Heap * error) :=
  match distributors ds !! distributorName with
  | None => mret (h, Some ("distributor " +:+ distributorName +:+ " does not exist"))
  | Some distributor =>
      if negb (ValidateRegion ds region) then
        mret (h, Some ("invalid region code: " +:+ region))
      else AddPermission ord fuel h distributor region isInclude
  end.

(** [ds.CheckPermission(distributorName, region)]. *)
Definition CheckPermission (ord : range_order) (fuel : nat) (h : Heap)
    (ds : DistributionSystem) (distributorName region : string)
    : run (bool * error) :=
  match distributors ds !! distributorName with
  | None =>
      mret (false, Some ("distributor " +:+ distributorName +:+ " does not exist"))
  | Some distributor =>
      if negb (ValidateRegion ds region) then
        mret (false, Some ("invalid region code: " +:+ region))
      else
        ok ← HasPermission ord fuel h distributor region;
        mret (ok, None)
  end.

End System.

(** ** Predicates used in the statements *)

(** Containment as the specification words it: a one-segment pattern holds
    the candidates whose last segment it is, a two-segment pattern those
    with at least two segments that end in it, a three-segment pattern only
    the three-segment candidate equal to it, and no other pattern holds
    anything. *)
Definition region_contains (candidate pattern : list string) : Prop :=
  match pattern with
  | [p0] => last candidate = Some p0
  | [p0; p1] =>
      (2 ≤ length candidate)%nat ∧
      drop (length candidate - 2) candidate = [p0; p1]
  | [p0; p1; p2] =>
      length candidate = 3%nat ∧
      candidate !! 0%nat = Some p0 ∧ candidate !! 1%nat = Some p1 ∧
      candidate !! 2%nat = Some p2
  | _ => False
  end.

#[global] Instance region_contains_dec candidate pattern :
  Decision (region_contains candidate pattern).
Proof.
  unfold region_contains.
  destruct pattern as [|p0 [|p1 [|p2 [|p3 pattern]]]]; apply _.
Defined.

(** Some rule of the set contains the region under [isSubregion]. *)
Definition rule_matches (region : string) (rules : gmap string bool) : Prop :=
  ∃ code, is_Some (rules !! code) ∧
          isSubregion (Split region hyphen) (Split code hyphen) = Ret true.

(** The same test over the keys in the order a loop visits them. *)
Definition is_match (parts : list string) (code : string) : bool :=
  match isSubregion parts (Split code hyphen) with
  | Ret b => b
  | _ => false
  end.

Definition any_match (parts : list string) (keys : list string) : bool :=
  existsb (is_match parts) keys.

(** The parent chain of [d] ends at a root after at most [n] nodes. *)
Fixpoint chain_ends (n : nat) (h : Heap) (d : ptr) : bool :=
  match n with
  | O => false
  | S n' =>
      match h !! d with
      | None => false
      | Some dist =>
          match Parent dist with
          | None => true
          | Some p => chain_ends n' h p
          end
      end
  end.

(** The parent chain of [d] is finite: it runs into no cycle. *)
Definition acyclic_chain (h : Heap) (d : ptr) : Prop :=
  ∃ n, chain_ends n h d = true.

(** ** Sample states *)

(** The keys in the order [map_to_list] lists them, in the reverse order,
    and in one that changes from loop to loop. *)
Definition ord_listed : range_order := λ _ _ m, (map_to_list m).*1.
Definition ord_reversed : range_order := λ _ _ m, reverse (map_to_list m).*1.
Definition ord_mixed : range_order := λ n l m,
  match l with
  | OverExcludes => if Nat.even n then ord_listed n l m else ord_reversed n l m
  | OverIncludes => if Nat.even n then ord_reversed n l m else ord_listed n l m
  end.

Definition rules (l : list string) : gmap string bool :=
  list_to_map ((λ k, (k, true)) <$> l).

Definition place (city province country : string) : Location :=
  {| CityCode := city; ProvinceCode := province; CountryCode := country;
     CityName := city; ProvinceName := province; CountryName := country |}.

(** The three catalog keys [LoadLocationData] enters for one record. *)
Definition load_record (loc : Location) (m : gmap string Location)
  : gmap string Location :=
  let cityKey := CityCode loc +:+ "-" +:+ ProvinceCode loc +:+ "-" +:+ CountryCode loc in
  let provinceKey := ProvinceCode loc +:+ "-" +:+ CountryCode loc in
  let countryKey := CountryCode loc in
  <[countryKey := loc]> (<[provinceKey := loc]> (<[cityKey := loc]> m)).

Definition sample_catalog : gmap string Location :=
  load_record (place "PARIS" "IDF" "FR")
    (load_record (place "LAX" "CA" "US")
       (load_record (place "NYC" "NY" "US") ∅)).

(** A root that includes US and a child of it with no rules yet, built
    through the facade. *)
Definition sample_system : Heap * System.DistributionSystem :=
  let ds0 := {| System.distributors := ∅; System.locations := sample_catalog |} in
  let '(h1, ds1, _) := System.AddDistributor [] ds0 "ROOT" "" in
  let h2 := match (System.AddPermission ord_listed 1 h1 ds1 "ROOT" "US" true).2 with
            | Ret (h, _) => h
            | _ => h1
            end in
  let '(h3, ds3, _) := System.AddDistributor h2 ds1 "KID" "ROOT" in
  (h3, ds3).

Definition sample_heap : Heap := sample_system.1.
Definition sample_ds : System.DistributionSystem := sample_system.2.

(** A two-level forest with rules on both levels. *)
Definition ruled_heap : Heap :=
  [ {| Name := "ROOT"; Parent := None; Includes := rules ["US"; "IN"];
       Excludes := rules ["TX-US"]; Locations := ∅ |};
    {| Name := "KID"; Parent := Some 0%nat; Includes := rules ["CA-US"; "TX-US"];
       Excludes := rules ["SFO-CA-US"]; Locations := ∅ |} ].

(** Two nodes that name each other as parent, as a state file can hold. *)
Definition looped_heap : Heap :=
  [ {| Name := "A"; Parent := Some 1%nat; Includes := rules ["US"];
       Excludes := ∅; Locations := ∅ |};
    {| Name := "B"; Parent := Some 0%nat; Includes := rules ["US"];
       Excludes := ∅; Locations := ∅ |} ].

(** ** Loading the catalog *)

(** What the CSV reader hands to [LoadLocationData]: the records its
    successive [Read] calls return, and the error of the call that returns
    none, [None] standing for [io.EOF]. *)
Record csv_reading := {
  records : list (list string);
  ending : error;
}.

(** The body of the reading loop for one record. *)
Definition load_row (record : list string) (catalog : gmap string Location)
  : outcome (gmap string Location) :=
  if len record >=? 6 then
    f0 ← index record 0; f1 ← index record 1; f2 ← index record 2;
    f3 ← index record 3; f4 ← index record 4; f5 ← index record 5;
    let location := {| CityCode := f0; ProvinceCode := f1; CountryCode := f2;
                       CityName := f3; ProvinceName := f4; CountryName := f5 |} in
    Ret (load_record location catalog)
  else Ret catalog.

(** The reading loop: it ends with no error at [io.EOF] and with the
    reader's error otherwise. *)
Fixpoint load_rows (rows : list (list string)) (ending : error)
    (catalog : gmap string Location) : outcome (gmap string Location * error) :=
  match rows with
  | [] => Ret (catalog, ending)
  | record :: rows' =>
      catalog' ← load_row record catalog;
      load_rows rows' ending catalog'
  end.

(** [ds.LoadLocationData(filename)]; the file is given by what opening and
    reading it yield: [inl err] when [os.Open] fails. *)
Definition LoadLocationData (ds : System.DistributionSystem)
    (file : string + csv_reading)
  : outcome (System.DistributionSystem * error) :=
  match file with
  | inl err => Ret (ds, Some err)
  | inr reading =>
      (* Skip header *)
      match records reading with
      | [] => Ret (ds, Some (default "EOF" (ending reading)))
      | _ :: rows =>
          '(catalog, err) ← load_rows rows (ending reading) (System.locations ds);
          Ret ({| System.distributors := System.distributors ds;
                  System.locations := catalog |}, err)
      end
  end.

(** The three keys a record is entered under. *)
Definition row_keys (record : list string) : list string :=
  match record with
  | city :: province :: country :: _ =>
      [city +:+ "-" +:+ province +:+ "-" +:+ country;
       province +:+ "-" +:+ country;
       country]
  | _ => []
  end.

(** The location a record of six fields or more is read as. *)
Definition row_location (record : list string) : option Location :=
  match record with
  | f0 :: f1 :: f2 :: f3 :: f4 :: f5 :: _ =>
      Some {| CityCode := f0; ProvinceCode := f1; CountryCode := f2;
              CityName := f3; ProvinceName := f4; CountryName := f5 |}
  | _ => None
  end.

(** No hyphen occurs in the code. *)
Fixpoint hyphen_free (s : string) : bool :=
  match s with
  | EmptyString => true
  | String c rest => negb (Ascii.eqb c hyphen) && hyphen_free rest
  end.

(** ** Persisted state *)

Module Persist.

(** The [DistributorData] struct, the form a distributor is stored in. *)
Record DistributorData := {
  Name : string;
  ParentName : string;
  Includes : gmap string bool;
  Excludes : gmap string bool;
}.

End Persist.

(** What opening, measuring and decoding the state file yield for
    [LoadState]. *)
Inductive state_file :=
  | Unreadable (err : string)      (* [os.OpenFile] or [file.Stat] failed *)
  | EmptyFile                      (* the file has size 0 *)
  | Undecodable (err : string)     (* the JSON decoder failed *)
  | Decoded (distributorsData : gmap string Persist.DistributorData).

(** The order in which a [range] over the decoded map visits its entries. *)
Definition data_order :=
  gmap string Persist.DistributorData → list (string * Persist.DistributorData).

Definition data_order_ok (o : data_order) : Prop := ∀ m, o m ≡ₚ map_to_list m.

(** The order in which a [range] over [ds.distributors] visits its entries. *)
Definition pointer_order := gmap string ptr → list (string * ptr).

Definition pointer_order_ok (o : pointer_order) : Prop := ∀ m, o m ≡ₚ map_to_list m.

Definition set_Parent (parent : option ptr) (dist : Distributor) : Distributor :=
  {| Name := Name dist; Parent := parent;
     Includes := Includes dist; Excludes := Excludes dist;
     Locations := Locations dist |}.

(** The object the first pass of [LoadState] makes for one entry. *)
Definition loaded_distributor (catalog : gmap string Location) (name : string)
    (data : Persist.DistributorData) : Distributor :=
  let dist := NewDistributor name None in
  let dist := set_Includes (Persist.Includes data) dist in
  let dist := set_Excludes (Persist.Excludes data) dist in
  set_Locations catalog dist.

(** First pass: create all distributors. *)
Fixpoint create_distributors (catalog : gmap string Location)
    (entries : list (string * Persist.DistributorData))
    (h : Heap) (distributors : gmap string ptr) : Heap * gmap string ptr :=
  match entries with
  | [] => (h, distributors)
  | (name, data) :: entries' =>
      let dist := loaded_distributor catalog name data in
      let p : ptr := length h in
      create_distributors catalog entries' (h ++ [dist]) (<[name := p]> distributors)
  end.

(** Second pass: set up parent relationships. *)
Fixpoint link_parents (entries : list (string * Persist.DistributorData))
    (distributors : gmap string ptr) (h : Heap) : outcome Heap :=
  match entries with
  | [] => Ret h
  | (name, data) :: entries' =>
      if negb (String.eqb (Persist.ParentName data) "") then
        match distributors !! Persist.ParentName data with
        | Some parent =>
            (* ds.distributors[name].Parent = parent *)
            match distributors !! name with
            | Some d =>
                dist ← deref h d;
                link_parents entries' distributors (<[d := set_Parent (Some parent) dist]> h)
            | None => Panic NilDereference
            end
        | None => link_parents entries' distributors h
        end
      else link_parents entries' distributors h
  end.

(** [ds.LoadState(filename)]: the heap and the system after the call, and
    the error returned. *)
Definition LoadState (first second : data_order) (h : Heap)
    (ds : System.DistributionSystem) (file : state_file)
  : outcome (Heap * System.DistributionSystem * error) :=
  match file with
  | Unreadable err => Ret (h, ds, Some err)
  | EmptyFile => Ret (h, ds, None)   (* Empty file, no data to load *)
  | Undecodable err => Ret (h, ds, Some err)
  | Decoded distributorsData =>
      let '(h1, distributors1) :=
        create_distributors (System.locations ds) (first distributorsData)
          h (System.distributors ds) in
      h2 ← link_parents (second distributorsData) distributors1 h1;
      Ret (h2,
           {| System.distributors := distributors1;
              System.locations := System.locations ds |},
           None)
  end.

(** The loop of [SaveState]. *)
Fixpoint save_distributors (entries : list (string * ptr)) (h : Heap)
    (distributorsData : gmap string Persist.DistributorData)
  : outcome (gmap string Persist.DistributorData) :=
  match entries with
  | [] => Ret distributorsData
  | (name, d) :: entries' =>
      dist ← deref h d;
      parentName ← match Parent dist with
                   | Some p => parent ← deref h p; Ret (Name parent)
                   | None => Ret ""
                   end;
      save_distributors entries' h
        (<[name := {| Persist.Name := Name dist;
                      Persist.ParentName := parentName;
                      Persist.Includes := Includes dist;
                      Persist.Excludes := Excludes dist |}]> distributorsData)
  end.

(** [ds.SaveState(filename)], up to the map it builds and hands to the
    encoder; creating the file and encoding come after the map is complete
    and touch nothing of the system. *)
Definition SaveState (o : pointer_order) (h : Heap)
    (ds : System.DistributionSystem)
  : outcome (gmap string Persist.DistributorData) :=
  save_distributors (o (System.distributors ds)) h ∅.

(** What [SaveState] stores for the object at [p]. *)
Definition saved (h : Heap) (p : ptr) : option Persist.DistributorData :=
  dist ← h !! p;
  parentName ← match Parent dist with
               | Some q => Name <$> h !! q
               | None => Some ""
               end;
  Some {| Persist.Name := Name dist;
          Persist.ParentName := parentName;
          Persist.Includes := Includes dist;
          Persist.Excludes := Excludes dist |}.

(** What [LoadState] makes of the entry [data] stored under [name], given
    the names it has registered. *)
Definition loaded (catalog : gmap string Location) (distributors : gmap string ptr)
    (name : string) (data : Persist.DistributorData) : Distributor :=
  {| Name := name;
     Parent := if decide (Persist.ParentName data = "") then None
               else distributors !! Persist.ParentName data;
     Includes := Persist.Includes data;
     Excludes := Persist.Excludes data;
     Locations := catalog |}.

(** Two states hold the same distributors: the same names are registered,
    and under each name the two objects have the same name, the same include
    and exclude sets, and parents registered under one and the same name, or
    no parent either. *)
Definition same_distributors (h : Heap) (ds : System.DistributionSystem)
    (h' : Heap) (ds' : System.DistributionSystem) : Prop :=
  ∀ name,
    match System.distributors ds !! name, System.distributors ds' !! name with
    | None, None => True
    | Some p, Some p' =>
        ∃ dist dist',
          h !! p = Some dist ∧ h' !! p' = Some dist' ∧
          Name dist' = Name dist ∧
          Includes dist' = Includes dist ∧ Excludes dist' = Excludes dist ∧
          match Parent dist, Parent dist' with
          | None, None => True
          | Some q, Some q' =>
              ∃ parentName, System.distributors ds !! parentName = Some q ∧
                            System.distributors ds' !! parentName = Some q'
          | _, _ => False
          end
    | _, _ => False
    end.

(** ** The parent chain *)

(** The distributors met walking up from [d], [d] first and the root last;
    [None] when the walk meets an invalid pointer or does not reach a root
    within [n] nodes. *)
Fixpoint chain (n : nat) (h : Heap) (d : ptr) : option (list ptr) :=
  match n with
  | O => None
  | S n' =>
      match h !! d with
      | None => None
      | Some dist =>
          match Parent dist with
          | None => Some [d]
          | Some p => (d ::.) <$> chain n' h p
          end
      end
  end.

(** The node at [p] has no exclude rule and some include rule that contains
    the region. *)
Definition allows (h : Heap) (region : string) (p : ptr) : Prop :=
  ∃ dist, h !! p = Some dist ∧
          ¬ rule_matches region (Excludes dist) ∧
          rule_matches region (Includes dist).

(** The heap after [d.Includes[code] = true] and after
    [d.Excludes[code] = true], [dist] being the object at [d]. *)
Definition with_include (h : Heap) (d : ptr) (dist : Distributor) (code : string)
  : Heap :=
  <[d := set_Includes (<[code := true]> (Includes dist)) dist]> h.

Definition with_exclude (h : Heap) (d : ptr) (dist : Distributor) (code : string)
  : Heap :=
  <[d := set_Excludes (<[code := true]> (Excludes dist)) dist]> h.

(** ** States the facade builds *)

(** Every registered name points to an object of that name, the parent of
    every object is itself registered under its own name, and no parent
    chain runs into a cycle. *)
Definition well_formed (h : Heap) (ds : System.DistributionSystem) : Prop :=
  (∀ name p, System.distributors ds !! name = Some p →
     ∃ dist, h !! p = Some dist ∧ Name dist = name) ∧
  (∀ p dist q, h !! p = Some dist → Parent dist = Some q →
     ∃ parent, h !! q = Some parent ∧
               System.distributors ds !! Name parent = Some q) ∧
  (∀ p dist, h !! p = Some dist → acyclic_chain h p).

(** ** The older per-distributor validation *)

(** [d.ValidateRegion(region)] of the first version of the program: a
    region code exists iff it is a key of the distributor's own reference to
    the catalog. *)
Definition ValidateRegion (h : Heap) (d : ptr) (region : string) : outcome bool :=
  dist ← deref h d;
  Ret (match Locations dist !! region with Some _ => true | None => false end).

(** ** The command line *)

Module CLI.

(** The values of the flags after [flag.Parse]. *)
Record flags := {
  command : string;
  distributorName : string;
  parentName : string;
  region : string;
  permissionType : string;
}.

(** What the file system yields to one run: the reading of the locations
    file, the reading of the state file, and the error that creating and
    encoding the state file return if [SaveState] gets that far. *)
Record files := {
  locations_file : string + csv_reading;
  state : state_file;
  save_error : error;
}.

(** The visiting orders of the [range] loops of one run. *)
Record orders := {
  rule_order : range_order;
  load_first : data_order;
  load_second : data_order;
  save_order : pointer_order;
  list_order : pointer_order;
  list_rules : gmap string bool → list string;
}.

(** What one run does to the outside: the text of its print calls, each
    without its final newline, and the map it built for the state file, if
    it came to save. *)
Record effects := {
  printed : list string;
  saved : option (gmap string Persist.DistributorData);
}.

End CLI.

Definition newline : string := String "010"%char EmptyString.

(** The body of the outer loop of [ListDistributors] for one entry. *)
Definition list_distributor (rules_in : gmap string bool → list string)
    (h : Heap) (name : string) (d : ptr) : outcome (list string) :=
  dist ← deref h d;
  parentName ← match Parent dist with
               | Some p => parent ← deref h p; Ret (Name parent)
               | None => Ret "none"
               end;
  Ret (["- " +:+ name +:+ " (Parent: " +:+ parentName +:+ ")";
        "  Includes:"]
       ++ ((λ region, "    - " +:+ region) <$> rules_in (Includes dist))
       ++ ["  Excludes:"]
       ++ ((λ region, "    - " +:+ region) <$> rules_in (Excludes dist))
       ++ [""]).

Fixpoint list_distributors (rules_in : gmap string bool → list string)
    (h : Heap) (entries : list (string * ptr)) : outcome (list string) :=
  match entries with
  | [] => Ret []
  | (name, d) :: entries' =>
      lines ← list_distributor rules_in h name d;
      rest ← list_distributors rules_in h entries';
      Ret (lines ++ rest)
  end.

(** [ds.ListDistributors()]: what it prints. *)
Definition ListDistributors (o : pointer_order)
    (rules_in : gmap string bool → list string) (h : Heap)
    (ds : System.DistributionSystem) : outcome (list string) :=
  lines ← list_distributors rules_in h (o (System.distributors ds));
  Ret ("Registered Distributors:" :: lines).

Definition usage : list string :=
  [ "Usage:";
    "1. Add distributor:";
    "   go run main.go -cmd=add-distributor -distributor=DIST1 [-parent=PARENTDIST]";
    newline +:+ "2. Add permission:";
    "   go run main.go -cmd=add-permission -distributor=DIST1 -region=REGION-CODE -type=include/exclude";
    newline +:+ "3. Check permission:";
    "   go run main.go -cmd=check -distributor=DIST1 -region=REGION-CODE";
    newline +:+ "4. List all distributors:";
    "   go run main.go -cmd=list" ].

(** The end of [main], after the [switch]: report the command's error, or
    save the state unless the command only reads. *)
Definition finish (os : CLI.orders) (fs : CLI.files) (fl : CLI.flags)
    (h : Heap) (system : System.DistributionSystem) (cmdErr : error)
    (out : list string) : outcome CLI.effects :=
  match cmdErr with
  | Some e => Ret {| CLI.printed := out ++ ["Error: " +:+ e]; CLI.saved := None |}
  | None =>
      (* Save state after successful command execution *)
      if negb (String.eqb (CLI.command fl) "check")
         && negb (String.eqb (CLI.command fl) "list") then
        data ← SaveState (CLI.save_order os) h system;
        Ret {| CLI.printed :=
                 out ++ match CLI.save_error fs with
                        | Some e => ["Error saving state: " +:+ e]
                        | None => []
                        end;
               CLI.saved := Some data |}
      else Ret {| CLI.printed := out; CLI.saved := None |}
  end.

(** [main()], from the parsed flags on. *)
Definition main (os : CLI.orders) (fuel : nat) (fs : CLI.files) (fl : CLI.flags)
  : outcome CLI.effects :=
  let stop line := Ret {| CLI.printed := [line]; CLI.saved := None |} in
  (* Initialize system *)
  let system := System.NewDistributionSystem in
  '(system, err) ← LoadLocationData system (CLI.locations_file fs);
  match err with
  | Some e => stop ("Error loading location data: " +:+ e)
  | None =>
  (* Load existing distributor data *)
  '(h, system, err) ← LoadState (CLI.load_first os) (CLI.load_second os) []
                        system (CLI.state fs);
  match err with
  | Some e => stop ("Error loading distributor data: " +:+ e)
  | None =>
  let command := CLI.command fl in
  let distributorName := CLI.distributorName fl in
  let region := CLI.region fl in
  if String.eqb command "list" then
    lines ← ListDistributors (CLI.list_order os) (CLI.list_rules os) h system;
    Ret {| CLI.printed := lines; CLI.saved := None |}
  else if String.eqb command "add-distributor" then
    if String.eqb distributorName "" then
      stop "Error: distributor name is required"
    else
      let '(h, system, cmdErr) :=
        System.AddDistributor h system distributorName (CLI.parentName fl) in
      finish os fs fl h system cmdErr
        match cmdErr with
        | None => ["Successfully added distributor: " +:+ distributorName]
        | Some _ => []
        end
  else if String.eqb command "add-permission" then
    if String.eqb distributorName "" || String.eqb region "" then
      stop "Error: distributor name and region are required"
    else
      let isInclude := String.eqb (CLI.permissionType fl) "include" in
      '(h, cmdErr) ← (System.AddPermission (CLI.rule_order os) fuel h system
                        distributorName region isInclude).2;
      finish os fs fl h system cmdErr
        match cmdErr with
        | None => ["Successfully added " +:+ CLI.permissionType fl
                   +:+ " permission for " +:+ region +:+ " to " +:+ distributorName]
        | Some _ => []
        end
  else if String.eqb command "check" then
    if String.eqb distributorName "" || String.eqb region "" then
      stop "Error: distributor name and region are required"
    else
      '(hasPermission, err) ← (System.CheckPermission (CLI.rule_order os) fuel h
                                 system distributorName region).2;
      match err with
      | Some e => stop ("Error checking permission: " +:+ e)
      | None =>
          location ← match System.locations system !! region with
                     | Some location => Ret location
                     | None => Panic NilDereference
                     end;
          finish os fs fl h system None
            [ "Permission check for " +:+ distributorName +:+ ":";
              "Region: " +:+ region +:+ " (" +:+ CityName location +:+ ", "
                +:+ ProvinceName location +:+ ", " +:+ CountryName location +:+ ")";
              "Result: " +:+ (if hasPermission : bool then "true" else "false") ]
      end
  else finish os fs fl h system None usage
  end
  end.



(** A printed line that reports a failure of loading or of the command, as
    opposed to one that reports a failure of writing the state file. *)
Definition is_error_line (line : string) : bool :=
  String.prefix "Error" line && negb (String.prefix "Error saving state: " line).

(** ** Sample persisted states *)

Definition data_listed : data_order := map_to_list.
Definition data_reversed : data_order := λ m, reverse (map_to_list m).
Definition pointers_listed : pointer_order := map_to_list.
Definition pointers_reversed : pointer_order := λ m, reverse (map_to_list m).

(** The names of [ruled_heap], and the same distributors laid out the other
    way round. *)
Definition ruled_ds : System.DistributionSystem :=
  {| System.distributors := <["ROOT" := 0%nat]> {["KID" := 1%nat]};
     System.locations := sample_catalog |}.

Definition swapped_heap : Heap :=
  [ {| Name := "KID"; Parent := Some 1%nat; Includes := rules ["CA-US"; "TX-US"];
       Excludes := rules ["SFO-CA-US"]; Locations := sample_catalog |};
    {| Name := "ROOT"; Parent := None; Includes := rules ["US"; "IN"];
       Excludes := rules ["TX-US"]; Locations := sample_catalog |} ].

Definition swapped_ds : System.DistributionSystem :=
  {| System.distributors := <["ROOT" := 1%nat]> {["KID" := 0%nat]};
     System.locations := sample_catalog |}.

(** What [SaveState] builds from [ruled_heap]. *)
Definition ruled_data : gmap string Persist.DistributorData :=
  <["ROOT" := {| Persist.Name := "ROOT"; Persist.ParentName := "";
                 Persist.Includes := rules ["US"; "IN"];
                 Persist.Excludes := rules ["TX-US"] |}]>
  {["KID" := {| Persist.Name := "KID"; Persist.ParentName := "ROOT";
                Persist.Includes := rules ["CA-US"; "TX-US"];
                Persist.Excludes := rules ["SFO-CA-US"] |}]}.

(** A state file in which a distributor names itself as parent and another
    names a parent that is not stored. *)
Definition odd_data : gmap string Persist.DistributorData :=
  <["SELF" := {| Persist.Name := "ignored"; Persist.ParentName := "SELF";
                 Persist.Includes := rules ["US"];
                 Persist.Excludes := ∅ |}]>
  {["ORPHAN" := {| Persist.Name := "ORPHAN"; Persist.ParentName := "GONE";
                   Persist.Includes := rules ["FR"];
                   Persist.Excludes := ∅ |}]}.

(** ** Sample runs *)

Definition sample_orders : CLI.orders :=
  {| CLI.rule_order := ord_mixed;
     CLI.load_first := data_listed;
     CLI.load_second := data_reversed;
     CLI.save_order := pointers_reversed;
     CLI.list_order := pointers_listed;
     CLI.list_rules := λ m, (map_to_list m).*1 |}.

Definition sample_reading : csv_reading :=
  {| records :=
       [ ["City Code"; "Province Code"; "Country Code";
          "City Name"; "Province Name"; "Country Name"];
         ["NYC"; "NY"; "US"; "New York"; "New York"; "United States"];
         ["LAX"; "CA"; "US"; "Los Angeles"; "California"; "United States"];
         ["PARIS"; "IDF"; "FR"; "Paris"; "Ile-de-France"; "France"] ];
     ending := None |}.

(** A run on the stored [ruled_data]. *)
Definition sample_files : CLI.files :=
  {| CLI.locations_file := inr sample_reading;
     CLI.state := Decoded ruled_data;
     CLI.save_error := None |}.


Definition denied_permission_flags : CLI.flags :=
  {| CLI.command := "add-permission"; CLI.distributorName := "KID";
     CLI.parentName := ""; CLI.region := "FR"; CLI.permissionType := "include" |}.

Definition check_flags : CLI.flags :=
  {| CLI.command := "check"; CLI.distributorName := "KID";
     CLI.parentName := ""; CLI.region := "LAX-CA-US"; CLI.permissionType := "include" |}.

(** ** Runs on the sample states *)

Example Split_city : Split "NYC-NY-US" hyphen = ["NYC"; "NY"; "US"].
Proof. reflexivity. Qed.

Example Split_empty : Split "" hyphen = [""].
Proof. reflexivity. Qed.

Example Split_empty_pieces : Split "a--b-" hyphen = ["a"; ""; "b"; ""].
Proof. reflexivity. Qed.

(** A candidate with no segment at all makes the first branch panic; no
    string splits to it. *)
Example isSubregion_no_segment : isSubregion [] ["US"] = Panic IndexOutOfRange.
Proof. reflexivity. Qed.

Example city_pattern_is_exact :
  isSubregion ["NY"; "US"] ["NYC"; "NY"; "US"] = Ret false.
Proof. reflexivity. Qed.

(** A root that includes US authorizes its provinces and cities, not FR. *)
Example root_authorizes :
  (HasPermission ord_listed 1 sample_heap 0%nat) <$> ["CA-US"; "NY-US"; "NYC-NY-US"; "FR"] =
  [ ([CallHasPermission 0%nat "CA-US"], Ret true);
    ([CallHasPermission 0%nat "NY-US"], Ret true);
    ([CallHasPermission 0%nat "NYC-NY-US"], Ret true);
    ([CallHasPermission 0%nat "FR"], Ret false) ].
Proof. vm_compute. reflexivity. Qed.

(** Its child can be granted CA-US. *)
Example child_granted_narrower :
  match System.AddPermission ord_listed 3 sample_heap sample_ds "KID" "CA-US" true with
  | (t, Ret (h', e)) =>
      t = [CallHasPermission 0%nat "CA-US"] ∧ e = None ∧
      (Includes <$> h' !! 1%nat) = Some (rules ["CA-US"])
  | _ => False
  end.
Proof. vm_compute. done. Qed.

(** Two nodes that name each other as parent: the walk never ends. *)
Example looped_runs_out :
  (HasPermission ord_listed 50 looped_heap 0%nat "CA-US").2 = OutOfFuel.
Proof. vm_compute. reflexivity. Qed.

(** ** Slices and splitting *)

Lemma Split_nonempty s sep : Split s sep ≠ [].
Proof.
  destruct s as [|c s]; simpl; [done|].
  destruct (Ascii.eqb c sep); [done|].
  by destruct (Split s sep).
Qed.

Lemma index_nat {A} (s : list A) (i : nat) :
  index s (Z.of_nat i) =
  match s !! i with Some x => Ret x | None => Panic IndexOutOfRange end.
Proof.
  unfold index, len. rewrite Nat2Z.id.
  destruct (s !! i) eqn:E.
  - apply lookup_lt_Some in E.
    destruct (Z.leb_spec 0 (Z.of_nat i)),
      (Z.ltb_spec (Z.of_nat i) (Z.of_nat (length s))); simpl; done || lia.
  - by destruct (_ && _).
Qed.

Lemma String_eqb_decide (x y : string) : String.eqb x y = bool_decide (x = y).
Proof.
  destruct (String.eqb_spec x y); symmetry;
    [by apply bool_decide_eq_true | by apply bool_decide_eq_false].
Qed.

Lemma nonempty_snoc {A} (l : list A) : l ≠ [] → ∃ l' x, l = l' ++ [x].
Proof.
  induction l as [|y l' _] using rev_ind; [done | eauto].
Qed.

Lemma two_snoc {A} (l : list A) :
  (2 ≤ length l)%nat → ∃ l' x y, l = l' ++ [x; y].
Proof.
  intros Hl. destruct (nonempty_snoc l) as (l1 & y & ->); [intros ->; simpl in Hl; lia|].
  rewrite length_app in Hl; simpl in Hl.
  destruct (nonempty_snoc l1) as (l2 & x & ->); [intros ->; simpl in Hl; lia|].
  exists l2, x, y. by rewrite <- app_assoc.
Qed.

(** ** Region containment *)

(** On a candidate with at least one segment [isSubregion] returns, and
    returns what the specification says. *)
Lemma isSubregion_nonempty candidate pattern :
  candidate ≠ [] →
  isSubregion candidate pattern = Ret (bool_decide (region_contains candidate pattern)).
Proof.
  intros Hc. unfold isSubregion.
  destruct pattern as [|p0 [|p1 [|p2 [|p3 pattern]]]].
  - done.
  - change (len [p0] =? 1) with true. cbv iota.
    destruct (nonempty_snoc _ Hc) as (c' & x & ->).
    replace (len (c' ++ [x]) - 1) with (Z.of_nat (length c'))
      by (unfold len; rewrite length_app; simpl; lia).
    rewrite index_nat, lookup_app_r, Nat.sub_diag by lia. simpl.
    rewrite String_eqb_decide, last_snoc.
    f_equal. apply bool_decide_ext. naive_solver.
  - change (len [p0; p1] =? 1) with false.
    change (len [p0; p1] =? 2) with true. cbv iota.
    destruct (decide (2 ≤ length candidate)%nat) as [Hl|Hl].
    + destruct (two_snoc _ Hl) as (c' & x & y & ->).
      assert (len (c' ++ [x; y]) = Z.of_nat (length c') + 2) as Hlen
        by (unfold len; rewrite length_app; simpl; lia).
      replace (len (c' ++ [x; y]) - 2) with (Z.of_nat (length c')) by lia.
      replace (len (c' ++ [x; y]) - 1) with (Z.of_nat (S (length c'))) by lia.
      replace (len (c' ++ [x; y]) >=? 2) with true
        by (symmetry; rewrite Z.geb_leb; apply Z.leb_le; lia).
      rewrite !index_nat, !lookup_app_r by lia.
      replace (length c' - length c')%nat with 0%nat by lia.
      replace (S (length c') - length c')%nat with 1%nat by lia.
      simpl. rewrite !String_eqb_decide.
      assert (drop (length (c' ++ [x; y]) - 2) (c' ++ [x; y]) = [x; y]) as Hd.
      { apply drop_app_length'. rewrite length_app. simpl. lia. }
      rewrite Hd.
      repeat case_bool_decide; simpl; try done; exfalso; intuition (simplify_eq; eauto).
    + replace (len candidate >=? 2) with false
        by (symmetry; rewrite Z.geb_leb; apply Z.leb_gt; unfold len; lia).
      simpl. case_bool_decide; [tauto | done].
  - change (len [p0; p1; p2] =? 1) with false.
    change (len [p0; p1; p2] =? 2) with false.
    change (len [p0; p1; p2] =? 3) with true. cbv iota.
    destruct candidate as [|c0 [|c1 [|c2 [|c3 candidate]]]]; try done.
    + simpl. rewrite !String_eqb_decide.
      repeat case_bool_decide; simpl; try done; exfalso; intuition (simplify_eq; eauto).
    + replace (len (c0 :: c1 :: c2 :: c3 :: candidate) =? 3) with false
        by (symmetry; apply Z.eqb_neq; unfold len; simpl; lia).
      simpl. try case_bool_decide; simpl in *; done || lia.
  - set (p := p0 :: p1 :: p2 :: p3 :: pattern).
    assert (4 ≤ len p) by (unfold len, p; simpl; lia).
    destruct (Z.eqb_spec (len p) 1); [lia|].
    destruct (Z.eqb_spec (len p) 2); [lia|].
    destruct (Z.eqb_spec (len p) 3); [lia|].
    done.
Qed.

Lemma is_match_spec parts code :
  parts ≠ [] → isSubregion parts (Split code hyphen) = Ret (is_match parts code).
Proof.
  intros Hp. unfold is_match. by rewrite isSubregion_nonempty.
Qed.

(** ** The two loops *)

Lemma check_excludes_spec parts keys :
  parts ≠ [] →
  check_excludes parts keys =
  Ret (if any_match parts keys then Some false else None).
Proof.
  intros Hp. induction keys as [|k keys IH]; simpl; [done|].
  rewrite is_match_spec by done. simpl.
  by destruct (is_match parts k).
Qed.

Lemma check_includes_spec parts on_match keys :
  parts ≠ [] →
  check_includes parts on_match keys =
  if any_match parts keys then r ← on_match; mret (Some r) else mret None.
Proof.
  intros Hp. induction keys as [|k keys IH]; simpl; [done|].
  rewrite is_match_spec by done. simpl.
  destruct (is_match parts k); simpl.
  - by destruct on_match as [t [r| |]].
  - rewrite IH. by destruct (any_match parts keys), on_match as [t [r| |]].
Qed.

Lemma any_match_true parts keys :
  any_match parts keys = true ↔ ∃ code, code ∈ keys ∧ is_match parts code = true.
Proof.
  unfold any_match. rewrite existsb_exists.
  split; intros (code & Hin & Hm); exists code; split; try done;
    by apply list_elem_of_In.
Qed.

Lemma any_match_perm parts keys1 keys2 :
  keys1 ≡ₚ keys2 → any_match parts keys1 = any_match parts keys2.
Proof.
  intros Hperm. apply eq_true_iff_eq. rewrite !any_match_true.
  by setoid_rewrite Hperm.
Qed.

Lemma elem_of_range ord n l (m : gmap string bool) code :
  range_ok ord → code ∈ ord n l m ↔ is_Some (m !! code).
Proof.
  intros Hord. rewrite (Hord n l m), list_elem_of_fmap. split.
  - intros ([k v] & -> & Hin). apply elem_of_map_to_list in Hin. by exists v.
  - intros [v Hv]. exists (code, v). split; [done|].
    by apply elem_of_map_to_list.
Qed.

Lemma any_match_range ord n l region (m : gmap string bool) :
  range_ok ord →
  any_match (Split region hyphen) (ord n l m) = true ↔ rule_matches region m.
Proof.
  intros Hord. rewrite any_match_true. unfold rule_matches.
  split; intros (code & Hin & Hm); exists code.
  - split; [by eapply elem_of_range|].
    rewrite is_match_spec by apply Split_nonempty. by rewrite Hm.
  - split; [by eapply elem_of_range|].
    rewrite is_match_spec in Hm by apply Split_nonempty. by injection Hm.
Qed.

Lemma any_match_order ord ord' n n' l l' region (m : gmap string bool) :
  range_ok ord → range_ok ord' →
  any_match (Split region hyphen) (ord n l m) =
  any_match (Split region hyphen) (ord' n' l' m).
Proof.
  intros Hord Hord'. apply any_match_perm. by rewrite (Hord n l m), (Hord' n' l' m).
Qed.

(** ** One call of HasPermission *)

(** What one activation does, in terms of the two loop tests. *)
Lemma HasPermission_unfold ord fuel h d dist region :
  h !! d = Some dist →
  HasPermission ord (S fuel) h d region =
  let parts := Split region hyphen in
  if any_match parts (ord fuel OverExcludes (Excludes dist)) then
    ([CallHasPermission d region], Ret false)
  else if any_match parts (ord fuel OverIncludes (Includes dist)) then
    match Parent dist with
    | Some p =>
        let '(t, o) := HasPermission ord fuel h p region in
        (CallHasPermission d region :: t, o)
    | None => ([CallHasPermission d region], Ret true)
    end
  else ([CallHasPermission d region], Ret false).
Proof.
  intros Hd. cbn [HasPermission]. unfold deref. rewrite Hd. simpl.
  rewrite check_excludes_spec by apply Split_nonempty.
  destruct (any_match _ (ord fuel OverExcludes _)); [done|].
  rewrite check_includes_spec by apply Split_nonempty.
  destruct (any_match _ (ord fuel OverIncludes _)); [|done].
  destruct (Parent dist) as [p|]; [|done].
  by destruct (HasPermission ord fuel h p region) as [t [b| |]];
    simpl; rewrite ?app_nil_r.
Qed.

Lemma HasPermission_dangling ord fuel h d region :
  h !! d = None →
  HasPermission ord (S fuel) h d region =
  ([CallHasPermission d region], Panic NilDereference).
Proof.
  intros Hd. cbn [HasPermission]. unfold deref. by rewrite Hd.
Qed.

(** The visiting orders do not matter, at any depth. *)
Lemma HasPermission_order ord ord' fuel h d region :
  range_ok ord → range_ok ord' →
  HasPermission ord fuel h d region = HasPermission ord' fuel h d region.
Proof.
  intros Hord Hord'. revert d.
  induction fuel as [|fuel IH]; intros d; [done|].
  destruct (h !! d) as [dist|] eqn:Hd.
  - rewrite !(HasPermission_unfold _ _ _ _ dist) by done. cbn zeta.
    rewrite (any_match_order ord ord' fuel fuel OverExcludes OverExcludes) by done.
    rewrite (any_match_order ord ord' fuel fuel OverIncludes OverIncludes) by done.
    destruct (Parent dist) as [p|]; [|done]. by rewrite IH.
  - by rewrite !HasPermission_dangling.
Qed.

(** An answer obtained within some depth is the answer at every larger one. *)
Lemma HasPermission_more_fuel ord fuel h d region t b :
  range_ok ord →
  HasPermission ord fuel h d region = (t, Ret b) →
  HasPermission ord (S fuel) h d region = (t, Ret b).
Proof.
  intros Hord. revert d t.
  induction fuel as [|fuel IH]; intros d t; [done|].
  destruct (h !! d) as [dist|] eqn:Hd.
  - rewrite !(HasPermission_unfold _ _ _ _ dist) by done. cbn zeta.
    rewrite (any_match_order ord ord (S fuel) fuel OverExcludes OverExcludes) by done.
    rewrite (any_match_order ord ord (S fuel) fuel OverIncludes OverIncludes) by done.
    destruct (any_match _ _); [done|].
    destruct (any_match _ _); [|done].
    destruct (Parent dist) as [p|]; [|done].
    destruct (HasPermission ord fuel h p region) as [t' o] eqn:Hp.
    intros [= <- ->]. by rewrite (IH _ _ Hp).
  - by rewrite !HasPermission_dangling.
Qed.

Lemma HasPermission_fuel_le ord fuel fuel' h d region t b :
  range_ok ord → (fuel ≤ fuel')%nat →
  HasPermission ord fuel h d region = (t, Ret b) →
  HasPermission ord fuel' h d region = (t, Ret b).
Proof.
  intros Hord Hle Hrun. induction Hle as [|fuel' _ IH]; [done|].
  by apply HasPermission_more_fuel.
Qed.

(** A parent chain that ends is walked to its end. *)
Lemma HasPermission_chain ord n h d region :
  chain_ends n h d = true →
  ∃ t b, HasPermission ord n h d region = (t, Ret b).
Proof.
  revert d. induction n as [|n IH]; intros d; [done|].
  cbn [chain_ends]. destruct (h !! d) as [dist|] eqn:Hd; [|done].
  rewrite (HasPermission_unfold _ _ _ _ dist) by done. cbn zeta.
  destruct (any_match _ _); [eauto|].
  destruct (any_match _ _); [|eauto].
  destruct (Parent dist) as [p|]; [|eauto].
  intros Hp. destruct (IH p Hp) as (t & b & ->). eauto.
Qed.

(** ** The sample visiting orders *)

Lemma ord_listed_ok : range_ok ord_listed.
Proof. by intros n l m. Qed.

Lemma ord_reversed_ok : range_ok ord_reversed.
Proof. intros n l m. apply reverse_Permutation. Qed.

Lemma ord_mixed_ok : range_ok ord_mixed.
Proof.
  intros n l m. unfold ord_mixed.
  destruct l, (Nat.even n); apply ord_listed_ok || apply ord_reversed_ok.
Qed.

(** Whether a rule matches can be computed from any listing of the keys. *)
Lemma rule_matches_listed region (m : gmap string bool) :
  rule_matches region m ↔
  any_match (Split region hyphen) (ord_listed 0%nat OverExcludes m) = true.
Proof. symmetry. apply any_match_range, ord_listed_ok. Qed.

(** ** Rule mutation *)

Lemma AddPermission_denied ord fuel h d dist p permission isInclude t :
  h !! d = Some dist → Parent dist = Some p →
  HasPermission ord fuel h p permission = (t, Ret false) →
  AddPermission ord fuel h d permission isInclude =
  (t, Ret (h, Some ("parent distributor does not have permission for: " +:+ permission))).
Proof.
  intros Hd Hpar Hp. unfold AddPermission, deref.
  rewrite Hd. simpl. rewrite Hpar, Hp. simpl. by rewrite !app_nil_r.
Qed.

(** Whenever the method returns an error the heap is the one it was given. *)
Lemma AddPermission_error_unchanged ord fuel h d permission isInclude t h' e :
  AddPermission ord fuel h d permission isInclude = (t, Ret (h', Some e)) →
  h' = h.
Proof.
  unfold AddPermission, deref.
  destruct (h !! d) as [dist|]; simpl; [|done].
  destruct (Parent dist) as [p|]; simpl.
  - destruct (HasPermission ord fuel h p permission) as [t' [[|]| |]]; simpl;
      destruct isInclude; intros [=]; done.
  - destruct isInclude; intros [=].
Qed.

Lemma System_AddPermission_error_unchanged ord fuel h ds name region isInclude t h' e :
  System.AddPermission ord fuel h ds name region isInclude = (t, Ret (h', Some e)) →
  h' = h.
Proof.
  unfold System.AddPermission.
  destruct (System.distributors ds !! name) as [d|]; [|by intros [=]].
  destruct (negb _); [by intros [=]|].
  apply AddPermission_error_unchanged.
Qed.

(** * The properties *)

(** ** Region containment *)

(** C2: for a candidate of one to three segments and any pattern,
    [isSubregion] returns, and returns true exactly when the pattern contains
    the candidate as the specification words it: a one-segment pattern iff it
    is the candidate's last segment, a two-segment pattern iff the candidate
    has at least two segments and ends in the pattern, a three-segment pattern
    iff the candidate has three segments equal to the pattern's in order, and
    a pattern of any other length never. *)
Theorem isSubregion_spec (candidate pattern : list string) :
  (1 ≤ length candidate ≤ 3)%nat →
  ∃ b, isSubregion candidate pattern = Ret b ∧
       (b = true ↔ region_contains candidate pattern).
Proof.
  intros [Hlo Hhi].
  exists (bool_decide (region_contains candidate pattern)). split.
  - apply isSubregion_nonempty. intros ->. simpl in Hlo. lia.
  - apply bool_decide_eq_true.
Qed.

Lemma isSubregion_spec_witness :
  ∃ b, isSubregion ["NYC"; "NY"; "US"] ["NY"; "US"] = Ret b ∧
       (b = true ↔ region_contains ["NYC"; "NY"; "US"] ["NY"; "US"]).
Proof.
  apply (isSubregion_spec ["NYC"; "NY"; "US"] ["NY"; "US"]). simpl. lia.
Defined.

(** ** Authorization evaluation *)

(** C3: when some exclude rule of the distributor contains the region,
    [HasPermission] returns false whatever the include rules are, and the
    only call made is the one on the distributor itself: the parent is not
    consulted. *)
Theorem HasPermission_exclude_wins ord fuel h d dist region :
  range_ok ord →
  h !! d = Some dist →
  rule_matches region (Excludes dist) →
  HasPermission ord (S fuel) h d region =
  ([CallHasPermission d region], Ret false).
Proof.
  intros Hord Hd Hex.
  rewrite (HasPermission_unfold _ _ _ _ dist) by done. cbn zeta.
  apply (any_match_range ord fuel OverExcludes) in Hex; [|done].
  by rewrite Hex.
Qed.

Lemma HasPermission_exclude_wins_witness :
  HasPermission ord_mixed 1 ruled_heap 1%nat "SFO-CA-US" =
  ([CallHasPermission 1%nat "SFO-CA-US"], Ret false).
Proof.
  apply (HasPermission_exclude_wins ord_mixed 0 ruled_heap 1%nat
           {| Name := "KID"; Parent := Some 0%nat;
              Includes := rules ["CA-US"; "TX-US"];
              Excludes := rules ["SFO-CA-US"]; Locations := ∅ |}).
  - apply ord_mixed_ok.
  - reflexivity.
  - exists "SFO-CA-US". split; [exists true|]; vm_compute; reflexivity.
Defined.

(** C4: for a distributor none of whose exclude rules contains the region:
    if some include rule contains it, [HasPermission] returns what the
    parent's [HasPermission] returns for the same region when there is a
    parent, and true when there is none; if no include rule contains it,
    [HasPermission] returns false. *)
Theorem HasPermission_include_defers ord fuel h d dist region :
  range_ok ord →
  h !! d = Some dist →
  ¬ rule_matches region (Excludes dist) →
  (rule_matches region (Includes dist) →
   match Parent dist with
   | Some p =>
       HasPermission ord (S fuel) h d region =
       (CallHasPermission d region :: (HasPermission ord fuel h p region).1,
        (HasPermission ord fuel h p region).2)
   | None =>
       HasPermission ord (S fuel) h d region =
       ([CallHasPermission d region], Ret true)
   end) ∧
  (¬ rule_matches region (Includes dist) →
   HasPermission ord (S fuel) h d region =
   ([CallHasPermission d region], Ret false)).
Proof.
  intros Hord Hd Hex.
  rewrite (HasPermission_unfold _ _ _ _ dist) by done. cbn zeta.
  rewrite <- (any_match_range ord fuel OverExcludes) in Hex by done.
  apply not_true_is_false in Hex. rewrite Hex.
  split; intros Hin.
  - apply (any_match_range ord fuel OverIncludes) in Hin; [|done].
    rewrite Hin. destruct (Parent dist) as [p|]; [|done].
    by destruct (HasPermission ord fuel h p region).
  - rewrite <- (any_match_range ord fuel OverIncludes) in Hin by done.
    apply not_true_is_false in Hin. by rewrite Hin.
Qed.

Lemma HasPermission_include_defers_witness :
  HasPermission ord_mixed 2 ruled_heap 1%nat "LAX-CA-US" =
  (CallHasPermission 1%nat "LAX-CA-US"
     :: (HasPermission ord_mixed 1 ruled_heap 0%nat "LAX-CA-US").1,
   (HasPermission ord_mixed 1 ruled_heap 0%nat "LAX-CA-US").2).
Proof.
  refine (proj1 (HasPermission_include_defers ord_mixed 1 ruled_heap 1%nat
           {| Name := "KID"; Parent := Some 0%nat;
              Includes := rules ["CA-US"; "TX-US"];
              Excludes := rules ["SFO-CA-US"]; Locations := ∅ |}
           "LAX-CA-US" ord_mixed_ok _ _) _).
  - reflexivity.
  - rewrite rule_matches_listed. vm_compute. discriminate.
  - exists "CA-US". split; [exists true|]; vm_compute; reflexivity.
Defined.

(** C9: the answer of [HasPermission] does not depend on the order in which
    the rule sets are enumerated: two evaluations that visit the keys of the
    same include and exclude sets in any two orders, chosen anew at every
    loop, make the same calls and return the same answer. *)
Theorem HasPermission_order_independent ord ord' fuel h d region :
  range_ok ord → range_ok ord' →
  HasPermission ord fuel h d region = HasPermission ord' fuel h d region.
Proof. apply HasPermission_order. Qed.

Lemma HasPermission_order_independent_witness :
  HasPermission ord_listed 3 ruled_heap 1%nat "LAX-CA-US" =
  HasPermission ord_mixed 3 ruled_heap 1%nat "LAX-CA-US".
Proof.
  apply (HasPermission_order_independent ord_listed ord_mixed 3 ruled_heap
           1%nat "LAX-CA-US").
  - apply ord_listed_ok.
  - apply ord_mixed_ok.
Defined.

(** C5: a child is never authorized beyond its parent: if [HasPermission]
    returns true for a distributor that has a parent, it returns true for
    the parent on the same region, whatever the rule sets of the two hold
    and in whatever orders they are enumerated. *)
Theorem child_within_parent ord ord' fuel h d dist p region :
  range_ok ord → range_ok ord' →
  h !! d = Some dist →
  Parent dist = Some p →
  (HasPermission ord fuel h d region).2 = Ret true →
  (HasPermission ord' fuel h p region).2 = Ret true.
Proof.
  intros Hord Hord' Hd Hpar.
  destruct fuel as [|fuel]; [done|].
  rewrite (HasPermission_unfold _ _ _ _ dist) by done. cbn zeta.
  destruct (any_match _ _); [done|].
  destruct (any_match _ _); [|done].
  rewrite Hpar.
  destruct (HasPermission ord fuel h p region) as [t o] eqn:Hp.
  intros Ho. cbn [snd] in Ho. subst o.
  apply HasPermission_more_fuel in Hp; [|done].
  by rewrite (HasPermission_order ord' ord), Hp.
Qed.

Lemma child_within_parent_witness :
  (HasPermission ord_reversed 2 ruled_heap 0%nat "LAX-CA-US").2 = Ret true.
Proof.
  apply (child_within_parent ord_mixed ord_reversed 2 ruled_heap 1%nat
           {| Name := "KID"; Parent := Some 0%nat;
              Includes := rules ["CA-US"; "TX-US"];
              Excludes := rules ["SFO-CA-US"]; Locations := ∅ |}
           0%nat "LAX-CA-US").
  - apply ord_mixed_ok.
  - apply ord_reversed_ok.
  - reflexivity.
  - reflexivity.
  - vm_compute. reflexivity.
Defined.

(** C10: [HasPermission] is total and free of panics on every region
    string, the empty one and those of more than three segments included:
    splitting on the hyphen yields at least one segment, [isSubregion]
    returns on such a candidate against every pattern, and for a distributor
    whose parent chain is acyclic the evaluation returns a boolean at every
    sufficiently large depth. *)
Theorem HasPermission_total ord h d region :
  range_ok ord →
  acyclic_chain h d →
  (1 ≤ length (Split region hyphen))%nat ∧
  (∀ pattern, ∃ b, isSubregion (Split region hyphen) pattern = Ret b) ∧
  ∃ fuel t b, ∀ fuel', (fuel ≤ fuel')%nat →
    HasPermission ord fuel' h d region = (t, Ret b).
Proof.
  intros Hord [n Hn]. split; [|split].
  - pose proof (Split_nonempty region hyphen).
    destruct (Split region hyphen); simpl; [done | lia].
  - intros pattern. eexists. apply isSubregion_nonempty, Split_nonempty.
  - destruct (HasPermission_chain ord n h d region Hn) as (t & b & Hrun).
    exists n, t, b. intros fuel' Hle. by eapply HasPermission_fuel_le.
Qed.

Lemma HasPermission_total_witness :
  (1 ≤ length (Split "" hyphen))%nat ∧
  (∀ pattern, ∃ b, isSubregion (Split "" hyphen) pattern = Ret b) ∧
  ∃ fuel t b, ∀ fuel', (fuel ≤ fuel')%nat →
    HasPermission ord_mixed fuel' ruled_heap 1%nat "" = (t, Ret b).
Proof.
  apply (HasPermission_total ord_mixed ruled_heap 1%nat "").
  - apply ord_mixed_ok.
  - exists 2%nat. reflexivity.
Defined.

(** ** Rule mutation *)

(** C1, as the code has it: the parent check of [AddPermission] gates the
    insertion of an include rule and of an exclude rule alike: when the
    distributor has a parent and the parent's [HasPermission] returns false
    for the region, the call returns the parent-denial error whichever of
    the two rule sets was to receive the region. *)
Theorem AddPermission_gates_both ord fuel h d dist p permission :
  h !! d = Some dist →
  Parent dist = Some p →
  (HasPermission ord fuel h p permission).2 = Ret false →
  ∀ isInclude, ∃ h',
    (AddPermission ord fuel h d permission isInclude).2 =
    Ret (h', Some ("parent distributor does not have permission for: "
                   +:+ permission)).
Proof.
  intros Hd Hpar Hp isInclude. exists h.
  destruct (HasPermission ord fuel h p permission) as [t o] eqn:Hrun.
  cbn [snd] in Hp. subst o.
  by rewrite (AddPermission_denied _ _ _ _ dist p _ _ t).
Qed.

Lemma AddPermission_gates_both_witness :
  (∃ h', (AddPermission ord_listed 3 sample_heap 1%nat "FR" true).2 =
         Ret (h', Some "parent distributor does not have permission for: FR")) ∧
  (∃ h', (AddPermission ord_listed 3 sample_heap 1%nat "FR" false).2 =
         Ret (h', Some "parent distributor does not have permission for: FR")).
Proof.
  assert (sample_heap !! 1%nat =
          Some (set_Locations sample_catalog (NewDistributor "KID" (Some 0%nat))))
    as Hd by (vm_compute; reflexivity).
  assert ((HasPermission ord_listed 3 sample_heap 0%nat "FR").2 = Ret false)
    as Hp by (vm_compute; reflexivity).
  split.
  - exact (AddPermission_gates_both ord_listed 3 sample_heap 1%nat _ 0%nat "FR"
             Hd eq_refl Hp true).
  - exact (AddPermission_gates_both ord_listed 3 sample_heap 1%nat _ 0%nat "FR"
             Hd eq_refl Hp false).
Defined.

(** C1 as stated fails: in the sample system the root includes only US, and
    adding FR to the exclude set of its child consults the root and is
    rejected with the parent-denial error, the heap left as it was. *)
Lemma exclude_insertion_is_gated :
  (HasPermission ord_listed 3 sample_heap 0%nat "FR").2 = Ret false ∧
  System.AddPermission ord_listed 3 sample_heap sample_ds "KID" "FR" false =
  ([CallHasPermission 0%nat "FR"],
   Ret (sample_heap, Some "parent distributor does not have permission for: FR")).
Proof. split; vm_compute; reflexivity. Qed.

(** C6: a rejected [AddPermission] is atomic: for a distributor with a
    parent and a region the parent does not authorize, the method and the
    facade operation both return the parent-denial error together with the
    heap they were given, so the include and exclude sets of every
    distributor are as before; and whenever the facade operation returns an
    error at all, the heap is unchanged. *)
Theorem AddPermission_rejected_atomic ord fuel h d dist p region isInclude :
  h !! d = Some dist →
  Parent dist = Some p →
  (HasPermission ord fuel h p region).2 = Ret false →
  (AddPermission ord fuel h d region isInclude).2 =
    Ret (h, Some ("parent distributor does not have permission for: " +:+ region)) ∧
  (∀ ds name,
     System.distributors ds !! name = Some d →
     System.ValidateRegion ds region = true →
     (System.AddPermission ord fuel h ds name region isInclude).2 =
     Ret (h, Some ("parent distributor does not have permission for: " +:+ region))) ∧
  (∀ ds name h' e,
     (System.AddPermission ord fuel h ds name region isInclude).2 = Ret (h', Some e) →
     h' = h).
Proof.
  intros Hd Hpar Hp.
  destruct (HasPermission ord fuel h p region) as [t o] eqn:Hrun.
  cbn [snd] in Hp. subst o.
  pose proof (AddPermission_denied _ _ _ _ dist p _ isInclude t Hd Hpar Hrun) as Hden.
  split; [by rewrite Hden|]. split.
  - intros ds name Hname Hvalid. unfold System.AddPermission.
    by rewrite Hname, Hvalid, Hden.
  - intros ds name h' e Herr.
    destruct (System.AddPermission ord fuel h ds name region isInclude)
      as [t' o'] eqn:Hsys.
    cbn [snd] in Herr. subst o'.
    by eapply System_AddPermission_error_unchanged.
Qed.

Lemma AddPermission_rejected_atomic_witness :
  (System.AddPermission ord_listed 3 sample_heap sample_ds "KID" "FR" true).2 =
  Ret (sample_heap, Some "parent distributor does not have permission for: FR").
Proof.
  refine (proj1 (proj2 (AddPermission_rejected_atomic ord_listed 3 sample_heap 1%nat
           (set_Locations sample_catalog (NewDistributor "KID" (Some 0%nat)))
           0%nat "FR" true _ _ _)) sample_ds "KID" _ _).
  - vm_compute. reflexivity.
  - reflexivity.
  - vm_compute. reflexivity.
  - vm_compute. reflexivity.
  - vm_compute. reflexivity.
Defined.

(** ** The system facade *)

(** C7: [AddDistributor name parentName] fails when [name] is registered;
    fails when [parentName] is not empty and names no distributor; and
    otherwise returns no error and enters under [name] a new node with
    empty include and exclude sets whose parent is the distributor that
    [parentName] names, or none when [parentName] is empty, every node and
    every name registered before being as it was.  In particular a second
    [AddDistributor name ""] fails. *)
Theorem AddDistributor_spec h ds name parentName :
  (is_Some (System.distributors ds !! name) →
   System.AddDistributor h ds name parentName =
   (h, ds, Some ("distributor " +:+ name +:+ " already exists"))) ∧
  (System.distributors ds !! name = None →
   parentName ≠ "" → System.distributors ds !! parentName = None →
   System.AddDistributor h ds name parentName =
   (h, ds, Some ("parent distributor " +:+ parentName +:+ " does not exist"))) ∧
  (System.distributors ds !! name = None →
   parentName = "" ∨ is_Some (System.distributors ds !! parentName) →
   ∃ h' ds' p node,
     System.AddDistributor h ds name parentName = (h', ds', None) ∧
     System.distributors ds' !! name = Some p ∧
     h !! p = None ∧ h' !! p = Some node ∧
     Name node = name ∧ Includes node = ∅ ∧ Excludes node = ∅ ∧
     Parent node = (if decide (parentName = "") then None
                    else System.distributors ds !! parentName) ∧
     (∀ other, other ≠ name →
        System.distributors ds' !! other = System.distributors ds !! other) ∧
     (∀ q dist, h !! q = Some dist → h' !! q = Some dist) ∧
     System.locations ds' = System.locations ds) ∧
  (let '(h1, ds1, _) := System.AddDistributor h ds name "" in
   System.AddDistributor h1 ds1 name "" =
   (h1, ds1, Some ("distributor " +:+ name +:+ " already exists"))).
Proof.
  assert (∀ parent, ∃ h' ds' p node,
    System.register h ds name parent = (h', ds', None) ∧
    System.distributors ds' !! name = Some p ∧
    h !! p = None ∧ h' !! p = Some node ∧
    Name node = name ∧ Includes node = ∅ ∧ Excludes node = ∅ ∧
    Parent node = parent ∧
    (∀ other, other ≠ name →
       System.distributors ds' !! other = System.distributors ds !! other) ∧
    (∀ q dist, h !! q = Some dist → h' !! q = Some dist) ∧
    System.locations ds' = System.locations ds) as Hreg.
  { intros parent. unfold System.register. do 4 eexists.
    split; [reflexivity|]. cbn [System.distributors System.locations].
    split; [apply lookup_insert_eq|].
    split; [by apply lookup_ge_None|].
    split; [by rewrite lookup_app_r, Nat.sub_diag|].
    repeat (split; [done|]).
    split; [intros other Hne; by apply lookup_insert_ne|].
    split; [|done].
    intros q dist Hq. by apply lookup_app_l_Some. }
  unfold System.AddDistributor. repeat split.
  - intros [q Hq]. by rewrite Hq.
  - intros Hname Hne Hpar. rewrite Hname, Hpar.
    destruct (String.eqb_spec parentName ""); done.
  - intros Hname Hpar. rewrite Hname.
    destruct (String.eqb_spec parentName "") as [->|Hne]; simpl.
    + destruct (Hreg None) as (h' & ds' & p & node & H). by exists h', ds', p, node.
    + destruct Hpar as [?|[q Hq]]; [done|]. rewrite Hq.
      destruct (Hreg (Some q)) as (h' & ds' & p & node & H).
      exists h', ds', p, node. by rewrite decide_False.
  - destruct (System.distributors ds !! name) as [q|] eqn:Hname.
    + by rewrite Hname.
    + cbn. by rewrite lookup_insert_eq.
Qed.

Lemma AddDistributor_spec_witness :
  System.AddDistributor sample_heap sample_ds "KID" "" =
  (sample_heap, sample_ds, Some "distributor KID already exists") ∧
  System.AddDistributor sample_heap sample_ds "NEW" "NOBODY" =
  (sample_heap, sample_ds, Some "parent distributor NOBODY does not exist") ∧
  ∃ h' ds' p node,
    System.AddDistributor sample_heap sample_ds "NEW" "KID" = (h', ds', None) ∧
    System.distributors ds' !! "NEW" = Some p ∧
    sample_heap !! p = None ∧ h' !! p = Some node ∧
    Name node = "NEW" ∧ Includes node = ∅ ∧ Excludes node = ∅ ∧
    Parent node = (if decide ("KID" = "") then None
                   else System.distributors sample_ds !! "KID") ∧
    (∀ other, other ≠ "NEW" →
       System.distributors ds' !! other = System.distributors sample_ds !! other) ∧
    (∀ q dist, sample_heap !! q = Some dist → h' !! q = Some dist) ∧
    System.locations ds' = System.locations sample_ds.
Proof.
  split; [|split].
  - apply (proj1 (AddDistributor_spec sample_heap sample_ds "KID" "")).
    exists 1%nat. vm_compute. reflexivity.
  - apply (proj1 (proj2 (AddDistributor_spec sample_heap sample_ds "NEW" "NOBODY"))).
    + vm_compute. reflexivity.
    + discriminate.
    + vm_compute. reflexivity.
  - apply (proj1 (proj2 (proj2 (AddDistributor_spec sample_heap sample_ds "NEW" "KID")))).
    + vm_compute. reflexivity.
    + right. exists 1%nat. vm_compute. reflexivity.
Defined.

(** C8, as the code has it: for a region code that is not a key of the
    catalog, [CheckPermission] returns false and an error without entering
    [HasPermission] on any distributor, at any call budget: the
    unknown-region error when the name is registered, and the
    unknown-distributor error when it is not. *)
Theorem CheckPermission_unknown_region ord fuel h ds name region :
  System.locations ds !! region = None →
  (is_Some (System.distributors ds !! name) →
   System.CheckPermission ord fuel h ds name region =
   ([], Ret (false, Some ("invalid region code: " +:+ region)))) ∧
  (System.distributors ds !! name = None →
   System.CheckPermission ord fuel h ds name region =
   ([], Ret (false, Some ("distributor " +:+ name +:+ " does not exist")))).
Proof.
  intros Hregion. unfold System.CheckPermission, System.ValidateRegion.
  rewrite Hregion. split.
  - intros [d Hd]. by rewrite Hd.
  - intros Hd. by rewrite Hd.
Qed.

Lemma CheckPermission_unknown_region_witness :
  System.CheckPermission ord_listed 0 looped_heap
    {| System.distributors := {["A" := 0%nat]}; System.locations := sample_catalog |}
    "A" "XX" =
  ([], Ret (false, Some "invalid region code: XX")).
Proof.
  refine (proj1 (CheckPermission_unknown_region ord_listed 0 looped_heap
    {| System.distributors := {["A" := 0%nat]}; System.locations := sample_catalog |}
    "A" "XX" _) _).
  - vm_compute. reflexivity.
  - exists 0%nat. vm_compute. reflexivity.
Defined.

(** C8 as stated fails: with no distributor registered, a check on a region
    code outside the catalog returns the unknown-distributor error, not the
    unknown-region one. *)
Lemma CheckPermission_name_checked_first :
  ¬ ∀ ord fuel h ds name region,
      System.locations ds !! region = None →
      (System.CheckPermission ord fuel h ds name region).2 =
      Ret (false, Some ("invalid region code: " +:+ region)).
Proof.
  intros Hclaim.
  specialize (Hclaim ord_listed 0%nat [] System.NewDistributionSystem "A" "XX" eq_refl).
  vm_compute in Hclaim. discriminate.
Qed.

(** * Further properties of the engine *)

(** ** Containment as an order on region codes *)

Lemma isSubregion_true candidate pattern :
  candidate ≠ [] →
  isSubregion candidate pattern = Ret true ↔ region_contains candidate pattern.
Proof.
  intros Hc. rewrite isSubregion_nonempty by done.
  split.
  - intros [= Hb]. by apply bool_decide_eq_true in Hb.
  - intros Hb. f_equal. by apply bool_decide_eq_true.
Qed.

Lemma three_segments (l : list string) x y z :
  length l = 3%nat → l !! 0%nat = Some x → l !! 1%nat = Some y →
  l !! 2%nat = Some z → l = [x; y; z].
Proof.
  destruct l as [|a [|b [|c [|e l]]]]; simpl; try done.
  by intros _ [= ->] [= ->] [= ->].
Qed.

Lemma last_of_drop {A} (l : list A) n x k :
  drop n l = x :: k → last l = last (x :: k).
Proof.
  intros Hd. rewrite <- (take_drop n l) at 1. rewrite Hd.
  apply last_app_cons.
Qed.

Lemma region_contains_trans a b c :
  region_contains a b → region_contains b c → region_contains a c.
Proof.
  destruct c as [|c0 [|c1 [|c2 [|c3 c]]]]; simpl; try done.
  - (* a country *)
    intros Hab Hbc.
    destruct b as [|b0 [|b1 [|b2 [|b3 b]]]]; simpl in *; try done.
    + congruence.
    + destruct Hab as [_ Hd]. rewrite (last_of_drop _ _ _ _ Hd). simpl. congruence.
    + destruct Hab as (Hl & H0 & H1 & H2).
      rewrite (three_segments a _ _ _ Hl H0 H1 H2). simpl. congruence.
  - (* a province *)
    intros Hab [Hlb Hbc].
    destruct b as [|b0 [|b1 [|b2 [|b3 b]]]]; simpl in *; try done; try lia.
    + injection Hbc as <- <-. done.
    + injection Hbc as <- <-.
      destruct Hab as (Hl & H0 & H1 & H2).
      rewrite (three_segments a _ _ _ Hl H0 H1 H2). simpl. split; [lia|done].
  - (* a city *)
    intros Hab (Hlb & H0 & H1 & H2).
    by rewrite (three_segments b _ _ _ Hlb H0 H1 H2) in Hab.
Qed.

(** X1: containment is transitive: if a region lies inside a second one and
    the second inside a third, [isSubregion] places the first inside the
    third, for any codes that have at least one segment. *)
Theorem isSubregion_transitive a b c :
  a ≠ [] → b ≠ [] →
  isSubregion a b = Ret true →
  isSubregion b c = Ret true →
  isSubregion a c = Ret true.
Proof.
  intros Ha Hb. rewrite !isSubregion_true by done.
  apply region_contains_trans.
Qed.

Lemma isSubregion_transitive_witness :
  isSubregion ["NYC"; "NY"; "US"] ["US"] = Ret true.
Proof.
  apply (isSubregion_transitive ["NYC"; "NY"; "US"] ["NY"; "US"] ["US"]);
    done || reflexivity.
Defined.

Lemma isSubregion_refl (region : list string) :
  (1 ≤ length region ≤ 3)%nat → isSubregion region region = Ret true.
Proof.
  intros [Hlo Hhi].
  destruct region as [|r0 [|r1 [|r2 [|r3 region]]]]; simpl in *; try lia;
    unfold isSubregion, str_eq; simpl; by rewrite !String.eqb_refl.
Qed.

(** X2: a code of one to three segments contains itself, so a rule matches
    the very region it names; a pattern of four or more segments contains
    no candidate at all, not even itself. *)
Theorem isSubregion_reflexive_upto_three (region : list string) :
  ((1 ≤ length region ≤ 3)%nat → isSubregion region region = Ret true) ∧
  ((4 ≤ length region)%nat → ∀ candidate, isSubregion candidate region = Ret false).
Proof.
  split.
  - apply isSubregion_refl.
  - intros Hlen candidate. unfold isSubregion.
    assert (4 ≤ len region) by (unfold len; lia).
    destruct (Z.eqb_spec (len region) 1); [lia|].
    destruct (Z.eqb_spec (len region) 2); [lia|].
    destruct (Z.eqb_spec (len region) 3); [lia|].
    done.
Qed.

Lemma isSubregion_reflexive_upto_three_witness :
  isSubregion (Split "CA-US" hyphen) (Split "CA-US" hyphen) = Ret true ∧
  isSubregion (Split "A-B-CA-US" hyphen) (Split "A-B-CA-US" hyphen) = Ret false.
Proof.
  split.
  - apply (proj1 (isSubregion_reflexive_upto_three (Split "CA-US" hyphen))).
    simpl. lia.
  - apply (proj2 (isSubregion_reflexive_upto_three (Split "A-B-CA-US" hyphen))).
    simpl. lia.
Defined.

(** ** Authorization along the parent chain *)

Lemma allows_any_match ord n h region d dist :
  range_ok ord → h !! d = Some dist →
  allows h region d ↔
  any_match (Split region hyphen) (ord n OverExcludes (Excludes dist)) = false ∧
  any_match (Split region hyphen) (ord n OverIncludes (Includes dist)) = true.
Proof.
  intros Hord Hd. unfold allows. split.
  - intros (dist' & Hd' & Hex & Hin). simplify_eq. split.
    + apply not_true_is_false. by rewrite any_match_range.
    + by rewrite any_match_range.
  - intros [Hex Hin]. exists dist. split; [done|]. split.
    + rewrite <- (any_match_range ord n OverExcludes) by done. by rewrite Hex.
    + by rewrite <- (any_match_range ord n OverIncludes).
Qed.

Lemma chain_head n h d nodes :
  chain n h d = Some nodes → ∃ rest, nodes = d :: rest.
Proof.
  destruct n as [|n]; [done|]. cbn [chain].
  destruct (h !! d) as [dist|]; [|done].
  destruct (Parent dist) as [p|].
  - destruct (chain n h p) as [rest|]; [|done]. intros [= <-]. eauto.
  - intros [= <-]. eauto.
Qed.

Lemma chain_ends_iff n h d : chain_ends n h d = true ↔ is_Some (chain n h d).
Proof.
  revert d. induction n as [|n IH]; intros d; cbn [chain chain_ends].
  - split; [done | by intros [? ?]].
  - destruct (h !! d) as [dist|]; [|split; [done | by intros [? ?]]].
    destruct (Parent dist) as [p|]; [|by split; eauto].
    rewrite IH. by rewrite fmap_is_Some.
Qed.

Lemma HasPermission_true_chain ord fuel h d region :
  range_ok ord →
  (HasPermission ord fuel h d region).2 = Ret true ↔
  ∃ nodes, chain fuel h d = Some nodes ∧ Forall (allows h region) nodes.
Proof.
  intros Hord. revert d. induction fuel as [|fuel IH]; intros d.
  - split; [done | by intros (? & ? & ?)].
  - destruct (h !! d) as [dist|] eqn:Hd.
    + rewrite (HasPermission_unfold _ _ _ _ dist) by done.
      pose proof (allows_any_match ord fuel h region d dist Hord Hd) as Hal.
      cbn [chain]. rewrite Hd. cbn zeta.
      destruct (any_match _ (ord fuel OverExcludes _)).
      { split; [done|]. intros (nodes & Hch & Hall). exfalso.
        assert (∃ rest, nodes = d :: rest) as [rest ->].
        { destruct (Parent dist); [|by injection Hch as <-; eauto].
          destruct (chain fuel h n); [|done]. injection Hch as <-. eauto. }
        apply Forall_cons in Hall as [Hd' _]. apply Hal in Hd' as [? _]. done. }
      destruct (any_match _ (ord fuel OverIncludes _)).
      2:{ split; [done|]. intros (nodes & Hch & Hall). exfalso.
        assert (∃ rest, nodes = d :: rest) as [rest ->].
        { destruct (Parent dist); [|by injection Hch as <-; eauto].
          destruct (chain fuel h n); [|done]. injection Hch as <-. eauto. }
        apply Forall_cons in Hall as [Hd' _]. apply Hal in Hd' as [_ ?]. done. }
      assert (allows h region d) as Hdal by (by apply Hal).
      destruct (Parent dist) as [p|].
      * specialize (IH p).
        destruct (HasPermission ord fuel h p region) as [t o]. cbn [snd] in *.
        rewrite IH. split.
        -- intros (nodes & -> & Hall). exists (d :: nodes). by split; [|constructor].
        -- intros (nodes & Hch & Hall).
           destruct (chain fuel h p) as [rest|]; [|done].
           injection Hch as <-. apply Forall_cons in Hall as [_ Hall]. eauto.
      * split; [|done]. intros _. exists [d]. split; [done|]. by constructor.
    + rewrite HasPermission_dangling by done. cbn [chain]. rewrite Hd.
      split; [done | by intros (? & ? & ?)].
Qed.

(** X3: authorization is the conjunction along the parent chain:
    [HasPermission] returns true exactly when the walk from the distributor
    up its parents reaches a root and every distributor on the way has an
    include rule, and no exclude rule, that contains the region. *)
Theorem HasPermission_true_iff ord fuel h d region :
  range_ok ord →
  (HasPermission ord fuel h d region).2 = Ret true ↔
  ∃ nodes, chain fuel h d = Some nodes ∧ Forall (allows h region) nodes.
Proof. apply HasPermission_true_chain. Qed.

Lemma HasPermission_true_iff_witness :
  (HasPermission ord_mixed 2 ruled_heap 1%nat "LAX-CA-US").2 = Ret true ↔
  ∃ nodes, chain 2 ruled_heap 1%nat = Some nodes ∧
           Forall (allows ruled_heap "LAX-CA-US") nodes.
Proof.
  apply (HasPermission_true_iff ord_mixed 2 ruled_heap 1%nat "LAX-CA-US").
  apply ord_mixed_ok.
Defined.

Lemma chain_suffix n h d nodes a :
  chain n h d = Some nodes → a ∈ nodes →
  ∃ m rest, (m ≤ n)%nat ∧ chain m h a = Some rest ∧ rest `suffix_of` nodes.
Proof.
  revert d nodes. induction n as [|n IH]; intros d nodes; [done|].
  intros Hch Ha.
  destruct (chain_head _ _ _ _ Hch) as [rest ->].
  apply elem_of_cons in Ha as [->|Ha].
  - exists (S n), (d :: rest). by split; [lia|].
  - cbn [chain] in Hch. destruct (h !! d) as [dist|]; [|done].
    destruct (Parent dist) as [p|]; [|by injection Hch as <-; set_solver].
    destruct (chain n h p) as [rest'|] eqn:Hp; [|done].
    injection Hch as <-.
    destruct (IH p rest' Hp Ha) as (m & l & Hm & Hl & Hsuf).
    exists m, l. split; [lia|]. split; [done|]. by apply suffix_cons_r.
Qed.

(** X4: whoever is authorized has a parent chain that ends at a root, and
    every ancestor on it is authorized for the same region as well. *)
Theorem authorized_ancestors ord fuel h d region :
  range_ok ord →
  (HasPermission ord fuel h d region).2 = Ret true →
  acyclic_chain h d ∧
  ∃ nodes, chain fuel h d = Some nodes ∧
    ∀ a, a ∈ nodes → (HasPermission ord fuel h a region).2 = Ret true.
Proof.
  intros Hord Htrue.
  apply HasPermission_true_chain in Htrue as (nodes & Hch & Hall); [|done].
  split.
  - exists fuel. apply chain_ends_iff. by rewrite Hch.
  - exists nodes. split; [done|]. intros a Ha.
    destruct (chain_suffix _ _ _ _ _ Hch Ha) as (m & rest & Hm & Hrest & Hsuf).
    assert ((HasPermission ord m h a region).2 = Ret true) as Hm_true.
    { apply HasPermission_true_chain; [done|]. exists rest. split; [done|].
      destruct Hsuf as [pre ->]. by apply Forall_app in Hall as [_ ?]. }
    destruct (HasPermission ord m h a region) as [t o] eqn:Hrun.
    cbn [snd] in Hm_true. subst o.
    by rewrite (HasPermission_fuel_le _ _ _ _ _ _ _ _ Hord Hm Hrun).
Qed.

Lemma authorized_ancestors_witness :
  acyclic_chain ruled_heap 1%nat ∧
  ∃ nodes, chain 2 ruled_heap 1%nat = Some nodes ∧
    ∀ a, a ∈ nodes →
         (HasPermission ord_mixed 2 ruled_heap a "LAX-CA-US").2 = Ret true.
Proof.
  apply (authorized_ancestors ord_mixed 2 ruled_heap 1%nat "LAX-CA-US").
  - apply ord_mixed_ok.
  - vm_compute. reflexivity.
Defined.

(** ** What adding a rule does to the answers *)

Lemma rule_matches_insert region (m : gmap string bool) code v :
  rule_matches region (<[code := v]> m) ↔
  rule_matches region m ∨
  isSubregion (Split region hyphen) (Split code hyphen) = Ret true.
Proof.
  unfold rule_matches. split.
  - intros (k & Hk & Hm). apply lookup_insert_is_Some in Hk as [->|[_ Hk]]; eauto.
  - intros [(k & Hk & Hm)|Hm].
    + exists k. split; [|done]. apply lookup_insert_is_Some.
      destruct (decide (code = k)); eauto.
    + exists code. split; [|done]. rewrite lookup_insert_eq. eauto.
Qed.

(** Replacing the object at [d] by one with the same parent changes no
    chain. *)
Lemma chain_same_parents n (h : Heap) d dist dist' q :
  h !! d = Some dist → Parent dist' = Parent dist →
  chain n (<[d := dist']> h) q = chain n h q.
Proof.
  intros Hd Hpar. revert q. induction n as [|n IH]; intros q; [done|].
  cbn [chain]. rewrite list_lookup_insert.
  pose proof (lookup_lt_Some _ _ _ Hd) as Hlt.
  destruct (decide (d = q ∧ (d < length h)%nat)) as [[-> _]|Hne].
  - rewrite Hd, Hpar. destruct (Parent dist); [by rewrite IH | done].
  - destruct (h !! q) as [distq|]; [|done].
    destruct (Parent distq); [by rewrite IH | done].
Qed.

Lemma allows_with_include (h : Heap) d dist code region p :
  h !! d = Some dist →
  allows h region p → allows (with_include h d dist code) region p.
Proof.
  intros Hd (distp & Hp & Hex & Hin). unfold allows, with_include.
  rewrite list_lookup_insert.
  pose proof (lookup_lt_Some _ _ _ Hd) as Hlt.
  destruct (decide (d = p ∧ (d < length h)%nat)) as [[-> _]|Hne].
  - simplify_eq. eexists. split; [done|]. simpl. split; [done|].
    apply rule_matches_insert. by left.
  - by exists distp.
Qed.

Lemma allows_with_exclude (h : Heap) d dist code region p :
  h !! d = Some dist →
  allows (with_exclude h d dist code) region p → allows h region p.
Proof.
  intros Hd. unfold allows, with_exclude. rewrite list_lookup_insert.
  pose proof (lookup_lt_Some _ _ _ Hd) as Hlt.
  destruct (decide (d = p ∧ (d < length h)%nat)) as [[-> _]|Hne]; [|done].
  intros (distp & [= <-] & Hex & Hin). simpl in *.
  exists dist. split; [done|]. split; [|done].
  intros Hm. apply Hex, rule_matches_insert. by left.
Qed.

Lemma HasPermission_with_include ord fuel (h : Heap) d dist code q region :
  range_ok ord →
  h !! d = Some dist →
  (HasPermission ord fuel h q region).2 = Ret true →
  (HasPermission ord fuel (with_include h d dist code) q region).2 = Ret true.
Proof.
  intros Hord Hd. rewrite !HasPermission_true_chain by done.
  intros (nodes & Hch & Hall). exists nodes. split.
  - unfold with_include. by rewrite (chain_same_parents _ _ _ dist).
  - eapply Forall_impl; [done|]. intros p. by apply allows_with_include.
Qed.

(** X5: adding an include rule never revokes anything: whatever
    distributor and region [HasPermission] answered true for before the
    rule was added to some distributor, it answers true for afterwards. *)
Theorem include_never_revokes ord fuel (h : Heap) d dist code q region :
  range_ok ord →
  h !! d = Some dist →
  (HasPermission ord fuel h q region).2 = Ret true →
  (HasPermission ord fuel (with_include h d dist code) q region).2 = Ret true.
Proof. apply HasPermission_with_include. Qed.

Lemma include_never_revokes_witness :
  (HasPermission ord_mixed 2
     (with_include ruled_heap 0%nat
        {| Name := "ROOT"; Parent := None; Includes := rules ["US"; "IN"];
           Excludes := rules ["TX-US"]; Locations := ∅ |} "FR")
     1%nat "LAX-CA-US").2 = Ret true.
Proof.
  apply (include_never_revokes ord_mixed 2 ruled_heap 0%nat _ "FR" 1%nat "LAX-CA-US").
  - apply ord_mixed_ok.
  - reflexivity.
  - vm_compute. reflexivity.
Defined.

(** X6: adding an exclude rule never grants anything: whatever
    [HasPermission] answers true for after the rule was added to some
    distributor, it answered true for before. *)
Theorem exclude_never_grants ord fuel (h : Heap) d dist code q region :
  range_ok ord →
  h !! d = Some dist →
  (HasPermission ord fuel (with_exclude h d dist code) q region).2 = Ret true →
  (HasPermission ord fuel h q region).2 = Ret true.
Proof.
  intros Hord Hd. rewrite !HasPermission_true_chain by done.
  intros (nodes & Hch & Hall). exists nodes. split.
  - unfold with_exclude in Hch. by rewrite (chain_same_parents _ _ _ dist) in Hch.
  - eapply Forall_impl; [done|]. intros p. by apply allows_with_exclude.
Qed.

Lemma exclude_never_grants_witness :
  (HasPermission ord_mixed 2 ruled_heap 1%nat "LAX-CA-US").2 = Ret true.
Proof.
  apply (exclude_never_grants ord_mixed 2 ruled_heap 0%nat
           {| Name := "ROOT"; Parent := None; Includes := rules ["US"; "IN"];
              Excludes := rules ["TX-US"]; Locations := ∅ |}
           "NY-US" 1%nat "LAX-CA-US").
  - apply ord_mixed_ok.
  - reflexivity.
  - vm_compute. reflexivity.
Defined.

(** What a call that returns no error did. *)
Lemma AddPermission_success ord fuel h d permission isInclude t h' :
  AddPermission ord fuel h d permission isInclude = (t, Ret (h', None)) →
  ∃ dist, h !! d = Some dist ∧
    h' = (if isInclude then with_include h d dist permission
          else with_exclude h d dist permission) ∧
    match Parent dist with
    | Some p => HasPermission ord fuel h p permission = (t, Ret true)
    | None => t = []
    end.
Proof.
  unfold AddPermission, deref.
  destruct (h !! d) as [dist|]; simpl; [|done].
  intros Hrun. exists dist. split; [done|].
  destruct (Parent dist) as [p|]; simpl in Hrun.
  - destruct (HasPermission ord fuel h p permission) as [t' [[|]| |]];
      simpl in Hrun; try done.
    destruct isInclude; simpl in Hrun; rewrite !app_nil_r in Hrun;
      by injection Hrun as <- <-.
  - destruct isInclude; simpl in Hrun; by injection Hrun as <- <-.
Qed.

(** X7: a granted region is authorized: after [AddPermission] has added an
    include rule for a region of one to three segments without error, the
    distributor is authorized for that region, unless one of its own
    exclude rules contains it. *)
Theorem granted_region_is_authorized ord fuel h d dist region t h' :
  range_ok ord →
  h !! d = Some dist →
  (1 ≤ length (Split region hyphen) ≤ 3)%nat →
  ¬ rule_matches region (Excludes dist) →
  AddPermission ord fuel h d region true = (t, Ret (h', None)) →
  (HasPermission ord (S fuel) h' d region).2 = Ret true.
Proof.
  intros Hord Hd Hseg Hex Hrun.
  apply AddPermission_success in Hrun as (dist' & Hd' & -> & Hpar).
  simplify_eq.
  pose proof (lookup_lt_Some _ _ _ Hd) as Hlt.
  assert (allows (with_include h d dist region) region d) as Hal.
  { eexists. split; [by apply list_lookup_insert_eq|]. simpl. split; [done|].
    apply rule_matches_insert. right.
    by apply isSubregion_refl. }
  apply HasPermission_true_chain; [done|].
  cbn [chain]. unfold with_include at 1. rewrite list_lookup_insert_eq by done.
  simpl. destruct (Parent dist) as [p|].
  - assert ((HasPermission ord fuel (with_include h d dist region) p region).2
            = Ret true) as Hp.
    { apply HasPermission_with_include; [done..|]. by rewrite Hpar. }
    apply HasPermission_true_chain in Hp as (nodes & Hch & Hall); [|done].
    exists (d :: nodes). rewrite Hch. by split; [|constructor].
  - exists [d]. by split; [|constructor].
Qed.

Lemma granted_region_is_authorized_witness :
  (HasPermission ord_listed 4
     (with_include sample_heap 1%nat
        (set_Locations sample_catalog (NewDistributor "KID" (Some 0%nat))) "CA-US")
     1%nat "CA-US").2 = Ret true.
Proof.
  apply (granted_region_is_authorized ord_listed 3 sample_heap 1%nat
           (set_Locations sample_catalog (NewDistributor "KID" (Some 0%nat)))
           "CA-US" [CallHasPermission 0%nat "CA-US"]).
  - apply ord_listed_ok.
  - vm_compute. reflexivity.
  - simpl. lia.
  - rewrite rule_matches_listed. vm_compute. discriminate.
  - vm_compute. reflexivity.
Defined.

(** X8: an excluded region is denied down the tree: after [AddPermission]
    has added an exclude rule without error, [HasPermission] answers false
    for every region the rule contains, on the distributor itself and on
    every distributor whose parent chain passes through it. *)
Theorem excluded_region_is_denied ord fuel h d code t h' :
  range_ok ord →
  AddPermission ord fuel h d code false = (t, Ret (h', None)) →
  ∀ fuel' q nodes region,
    isSubregion (Split region hyphen) (Split code hyphen) = Ret true →
    chain fuel' h' q = Some nodes → d ∈ nodes →
    (HasPermission ord fuel' h' q region).2 = Ret false.
Proof.
  intros Hord Hrun fuel' q nodes region Hin Hch Hd.
  apply AddPermission_success in Hrun as (dist & Hdist & -> & _).
  pose proof (lookup_lt_Some _ _ _ Hdist) as Hlt.
  destruct (HasPermission_chain ord fuel' (with_exclude h d dist code) q region)
    as (t' & b & Hq).
  { apply chain_ends_iff. by rewrite Hch. }
  rewrite Hq. cbn [snd]. destruct b; [|done]. exfalso.
  assert ((HasPermission ord fuel' (with_exclude h d dist code) q region).2
          = Ret true) as Htrue by (by rewrite Hq).
  apply HasPermission_true_chain in Htrue as (nodes' & Hch' & Hall); [|done].
  simplify_eq. rewrite Forall_forall in Hall.
  destruct (Hall d Hd) as (dist' & Hd' & Hex & _).
  unfold with_exclude in Hd'. rewrite list_lookup_insert_eq in Hd' by done.
  injection Hd' as <-. apply Hex. simpl.
  apply rule_matches_insert. by right.
Qed.

Lemma excluded_region_is_denied_witness :
  (HasPermission ord_mixed 2
     (with_exclude ruled_heap 0%nat
        {| Name := "ROOT"; Parent := None; Includes := rules ["US"; "IN"];
           Excludes := rules ["TX-US"]; Locations := ∅ |} "CA-US")
     1%nat "LAX-CA-US").2 = Ret false.
Proof.
  refine (excluded_region_is_denied ord_mixed 0 ruled_heap 0%nat "CA-US" [] _
            ord_mixed_ok _ 2%nat 1%nat [1%nat; 0%nat] "LAX-CA-US" _ _ _).
  - vm_compute. reflexivity.
  - vm_compute. reflexivity.
  - vm_compute. reflexivity.
  - set_solver.
Defined.

(** X9: the facade's [AddPermission] rejects an unregistered distributor
    name first and a region code outside the catalog second; either way it
    returns the error with the heap untouched and without entering
    [HasPermission]. *)
Theorem AddPermission_validates_first ord fuel h ds name region isInclude :
  (System.distributors ds !! name = None →
   System.AddPermission ord fuel h ds name region isInclude =
   ([], Ret (h, Some ("distributor " +:+ name +:+ " does not exist")))) ∧
  (is_Some (System.distributors ds !! name) →
   System.locations ds !! region = None →
   System.AddPermission ord fuel h ds name region isInclude =
   ([], Ret (h, Some ("invalid region code: " +:+ region)))).
Proof.
  unfold System.AddPermission, System.ValidateRegion. split.
  - intros Hname. by rewrite Hname.
  - intros [d Hd] Hregion. by rewrite Hd, Hregion.
Qed.

Lemma AddPermission_validates_first_witness :
  System.AddPermission ord_listed 0 sample_heap sample_ds "NOBODY" "XX" true =
  ([], Ret (sample_heap, Some "distributor NOBODY does not exist")) ∧
  System.AddPermission ord_listed 0 sample_heap sample_ds "KID" "XX" false =
  ([], Ret (sample_heap, Some "invalid region code: XX")).
Proof.
  split.
  - apply (proj1 (AddPermission_validates_first ord_listed 0 sample_heap sample_ds
                    "NOBODY" "XX" true)).
    vm_compute. reflexivity.
  - apply (proj2 (AddPermission_validates_first ord_listed 0 sample_heap sample_ds
                    "KID" "XX" false)).
    + exists 1%nat. vm_compute. reflexivity.
    + vm_compute. reflexivity.
Defined.

(** ** The invariant of the facade *)

Lemma chain_ends_app n (h k : Heap) d :
  chain_ends n h d = true → chain_ends n (h ++ k) d = true.
Proof.
  revert d. induction n as [|n IH]; intros d; [done|]. cbn [chain_ends].
  destruct (h !! d) as [dist|] eqn:Hd; [|done].
  rewrite (lookup_app_l_Some _ _ _ _ Hd).
  destruct (Parent dist); [apply IH | done].
Qed.

Lemma register_well_formed h ds name parent :
  well_formed h ds →
  System.distributors ds !! name = None →
  (∀ q, parent = Some q → ∃ parentName, System.distributors ds !! parentName = Some q) →
  well_formed (System.register h ds name parent).1.1 (System.register h ds name parent).1.2.
Proof.
  intros (Hreg & Hpar & Hacyc) Hname Hparent. unfold System.register.
  cbn [fst snd System.distributors System.locations].
  set (node := set_Locations (System.locations ds) (NewDistributor name parent)).
  assert ((h ++ [node]) !! length h = Some node) as Hnew
    by (by rewrite lookup_app_r, Nat.sub_diag).
  split; [|split]; cbn [System.distributors].
  - intros name' p. rewrite lookup_insert. case_decide as Hn.
    + intros [= <-]. subst name'. by exists node.
    + intros Hp. destruct (Hreg _ _ Hp) as (dist & Hd & Hnm).
      exists dist. split; [by apply lookup_app_l_Some | done].
  - assert (∀ q parentq, h !! q = Some parentq →
              System.distributors ds !! Name parentq = Some q →
              ∃ parent0, (h ++ [node]) !! q = Some parent0 ∧
                <[name := length h]> (System.distributors ds) !! Name parent0 = Some q)
      as Hkeep.
    { intros q parentq Hq Hnm. exists parentq.
      split; [by apply lookup_app_l_Some|].
      rewrite lookup_insert_ne; [done|]. intros Heq. rewrite Heq in Hname. congruence. }
    intros p dist q Hp Hq.
    apply lookup_app_Some in Hp as [Hp|[_ Hp]].
    + destruct (Hpar _ _ _ Hp Hq) as (parentq & Hq' & Hnm). eauto.
    + apply list_lookup_singleton_Some in Hp as [_ <-]. simpl in Hq. subst parent.
      destruct (Hparent q eq_refl) as (parentName & Hpn).
      destruct (Hreg _ _ Hpn) as (parentq & Hq' & <-). eauto.
  - intros p dist Hp.
    apply lookup_app_Some in Hp as [Hp|[Hlen Hp]].
    + destruct (Hacyc _ _ Hp) as [n Hn]. exists n. by apply chain_ends_app.
    + apply list_lookup_singleton_Some in Hp as [Hp <-].
      assert (p = length h) as -> by lia.
      destruct parent as [q|].
      * destruct (Hparent q eq_refl) as (parentName & Hpn).
        destruct (Hreg _ _ Hpn) as (parentq & Hq' & _).
        destruct (Hacyc _ _ Hq') as [n Hn].
        exists (S n). cbn [chain_ends]. rewrite Hnew. simpl.
        by apply chain_ends_app.
      * exists 1%nat. cbn [chain_ends]. by rewrite Hnew.
Qed.

Lemma replace_well_formed (h : Heap) ds d dist dist' :
  well_formed h ds →
  h !! d = Some dist → Name dist' = Name dist → Parent dist' = Parent dist →
  well_formed (<[d := dist']> h) ds.
Proof.
  intros (Hreg & Hpar & Hacyc) Hd Hnm Hpr.
  pose proof (lookup_lt_Some _ _ _ Hd) as Hlt.
  assert (∀ p distp, h !! p = Some distp →
            ∃ distp', <[d := dist']> h !! p = Some distp' ∧
                      Name distp' = Name distp ∧ Parent distp' = Parent distp)
    as Hfwd.
  { intros p distp Hp. rewrite list_lookup_insert. case_decide as Hc.
    - destruct Hc as [-> _]. simplify_eq. eauto.
    - eauto. }
  assert (∀ p distp', <[d := dist']> h !! p = Some distp' →
            ∃ distp, h !! p = Some distp ∧
                     Name distp' = Name distp ∧ Parent distp' = Parent distp)
    as Hbwd.
  { intros p distp'. rewrite list_lookup_insert. case_decide as Hc.
    - destruct Hc as [-> _]. intros [= <-]. eauto.
    - eauto. }
  split; [|split].
  - intros name p Hp. destruct (Hreg _ _ Hp) as (distp & Hdp & <-).
    destruct (Hfwd _ _ Hdp) as (distp' & ? & ? & _). eauto.
  - intros p distp' q Hp Hq.
    destruct (Hbwd _ _ Hp) as (distp & Hdp & _ & Hpp). rewrite Hpp in Hq.
    destruct (Hpar _ _ _ Hdp Hq) as (parentq & Hq' & Hnq).
    destruct (Hfwd _ _ Hq') as (parentq' & ? & Hn' & _).
    exists parentq'. by rewrite Hn'.
  - intros p distp' Hp.
    destruct (Hbwd _ _ Hp) as (distp & Hdp & _).
    destruct (Hacyc _ _ Hdp) as [n Hn]. exists n.
    apply chain_ends_iff. rewrite (chain_same_parents _ _ _ dist) by done.
    by apply chain_ends_iff.
Qed.



Lemma well_formed_kept ord fuel h ds :
  (System.distributors ds = ∅ → well_formed [] ds) ∧
  (well_formed h ds →
   (∀ name parentName,
      well_formed (System.AddDistributor h ds name parentName).1.1
                  (System.AddDistributor h ds name parentName).1.2) ∧
   (∀ name region isInclude t h' e,
      System.AddPermission ord fuel h ds name region isInclude = (t, Ret (h', e)) →
      well_formed h' ds)).
Proof.
  split.
  - intros Hempty. split; [|split].
    + intros name p. by rewrite Hempty, lookup_empty.
    + by intros p dist q.
    + by intros p dist.
  - intros Hwf. split.
    + intros name parentName. unfold System.AddDistributor.
      destruct (System.distributors ds !! name) eqn:Hname; [done|].
      destruct (negb _).
      * destruct (System.distributors ds !! parentName) as [q|] eqn:Hq; [|done].
        apply register_well_formed; [done..|]. intros ? [= <-]. eauto.
      * by apply register_well_formed.
    + intros name region isInclude t h' [e|] Hrun.
      * by rewrite (System_AddPermission_error_unchanged _ _ _ _ _ _ _ _ _ _ Hrun).
      * unfold System.AddPermission in Hrun.
        destruct (System.distributors ds !! name) as [d|]; [|done].
        destruct (negb _); [done|].
        apply AddPermission_success in Hrun as (dist & Hd & -> & _).
        by destruct isInclude; eapply replace_well_formed.
Qed.

(** X10: the state of a system with no distributor is well formed, and
    [AddDistributor] and the facade's [AddPermission] keep it so, whether
    they succeed or fail: registered names point to objects of that name,
    parents are registered distributors, and no parent chain has a cycle. *)
Theorem facade_keeps_well_formed ord fuel h ds :
  (System.distributors ds = ∅ → well_formed [] ds) ∧
  (well_formed h ds →
   (∀ name parentName,
      well_formed (System.AddDistributor h ds name parentName).1.1
                  (System.AddDistributor h ds name parentName).1.2) ∧
   (∀ name region isInclude t h' e,
      System.AddPermission ord fuel h ds name region isInclude = (t, Ret (h', e)) →
      well_formed h' ds)).
Proof. apply well_formed_kept. Qed.






(** * The catalog *)

Lemma load_row_full record catalog location :
  row_location record = Some location →
  load_row record catalog = Ret (load_record location catalog).
Proof.
  destruct record as [|f0 [|f1 [|f2 [|f3 [|f4 [|f5 record]]]]]]; try done.
  intros [= <-]. unfold load_row.
  replace (len (f0 :: f1 :: f2 :: f3 :: f4 :: f5 :: record) >=? 6) with true
    by (symmetry; rewrite Z.geb_leb; apply Z.leb_le; unfold len; simpl; lia).
  change 0 with (Z.of_nat 0). change 1 with (Z.of_nat 1).
  change 2 with (Z.of_nat 2). change 3 with (Z.of_nat 3).
  change 4 with (Z.of_nat 4). change 5 with (Z.of_nat 5).
  by rewrite !index_nat.
Qed.

Lemma load_row_short record catalog :
  row_location record = None → load_row record catalog = Ret catalog.
Proof.
  intros Hshort. unfold load_row.
  replace (len record >=? 6) with false; [done|].
  symmetry. rewrite Z.geb_leb. apply Z.leb_gt. unfold len.
  destruct record as [|f0 [|f1 [|f2 [|f3 [|f4 [|f5 record]]]]]]; simpl; done || lia.
Qed.

Lemma row_location_full record :
  is_Some (row_location record) ↔ (6 ≤ length record)%nat.
Proof.
  destruct record as [|f0 [|f1 [|f2 [|f3 [|f4 [|f5 record]]]]]]; simpl;
    (split; [intros [? ?]; done || lia | intros; done || lia || eauto]).
Qed.

Lemma load_record_keys location catalog code :
  is_Some (load_record location catalog !! code) ↔
  is_Some (catalog !! code) ∨
  code ∈ [CityCode location +:+ "-" +:+ ProvinceCode location +:+ "-" +:+ CountryCode location;
          ProvinceCode location +:+ "-" +:+ CountryCode location;
          CountryCode location].
Proof.
  unfold load_record. rewrite !lookup_insert_is_Some'. set_solver.
Qed.

Lemma load_record_lookup location catalog code :
  code ∈ [CityCode location +:+ "-" +:+ ProvinceCode location +:+ "-" +:+ CountryCode location;
          ProvinceCode location +:+ "-" +:+ CountryCode location;
          CountryCode location] →
  load_record location catalog !! code = Some location.
Proof.
  unfold load_record. intros Hin.
  repeat (rewrite lookup_insert; case_decide; [done|]).
  set_solver.
Qed.

Lemma load_record_other location catalog code :
  code ∉ [CityCode location +:+ "-" +:+ ProvinceCode location +:+ "-" +:+ CountryCode location;
          ProvinceCode location +:+ "-" +:+ CountryCode location;
          CountryCode location] →
  load_record location catalog !! code = catalog !! code.
Proof.
  unfold load_record. intros Hin.
  rewrite !lookup_insert_ne; set_solver.
Qed.

Lemma row_keys_location record location :
  row_location record = Some location →
  row_keys record =
  [CityCode location +:+ "-" +:+ ProvinceCode location +:+ "-" +:+ CountryCode location;
   ProvinceCode location +:+ "-" +:+ CountryCode location;
   CountryCode location].
Proof.
  destruct record as [|f0 [|f1 [|f2 [|f3 [|f4 [|f5 record]]]]]]; try done.
  by intros [= <-].
Qed.

Lemma load_rows_spec rows ending catalog :
  ∃ catalog', load_rows rows ending catalog = Ret (catalog', ending) ∧
    ∀ code, is_Some (catalog' !! code) ↔
      is_Some (catalog !! code) ∨
      ∃ record, record ∈ rows ∧ (6 ≤ length record)%nat ∧ code ∈ row_keys record.
Proof.
  revert catalog. induction rows as [|record rows IH]; intros catalog.
  - exists catalog. split; [done|]. intros code. split; [eauto|].
    intros [?|(record & Hin & _)]; [done|]. by apply elem_of_nil in Hin.
  - cbn [load_rows].
    destruct (row_location record) as [location|] eqn:Hloc.
    + rewrite (load_row_full _ _ _ Hloc). simpl.
      destruct (IH (load_record location catalog)) as (catalog' & -> & Hkeys).
      exists catalog'. split; [done|]. intros code.
      rewrite Hkeys, load_record_keys, <- (row_keys_location _ _ Hloc).
      assert (6 ≤ length record)%nat by (apply row_location_full; eauto).
      split.
      * intros [[?|?]|(r & ? & ? & ?)]; [by left|right..].
        -- exists record. set_solver.
        -- exists r. set_solver.
      * intros [?|(r & [->|?]%elem_of_cons & ? & ?)]; eauto.
    + rewrite (load_row_short _ _ Hloc). simpl.
      destruct (IH catalog) as (catalog' & -> & Hkeys).
      exists catalog'. split; [done|]. intros code. rewrite Hkeys.
      assert (¬ (6 ≤ length record)%nat).
      { intros Hlen. apply row_location_full in Hlen as [? ?]. congruence. }
      split.
      * intros [?|(r & ? & ? & ?)]; [by left|right]. exists r. set_solver.
      * intros [?|(r & [->|?]%elem_of_cons & ? & ?)]; eauto. done.
Qed.

Lemma ValidateRegion_true ds code :
  System.ValidateRegion ds code = true ↔ is_Some (System.locations ds !! code).
Proof.
  unfold System.ValidateRegion.
  destruct (System.locations ds !! code); split; done || eauto || by intros [? ?].
Qed.

Lemma LoadLocationData_keys ds file :
  ∃ ds' err,
    LoadLocationData ds file = Ret (ds', err) ∧
    System.distributors ds' = System.distributors ds ∧
    match file with
    | inl e => ds' = ds ∧ err = Some e
    | inr reading =>
        match records reading with
        | [] => ds' = ds ∧ is_Some err
        | _ :: rows =>
            err = ending reading ∧
            ∀ code, System.ValidateRegion ds' code = true ↔
              System.ValidateRegion ds code = true ∨
              ∃ record, record ∈ rows ∧ (6 ≤ length record)%nat ∧
                        code ∈ row_keys record
        end
    end.
Proof.
  destruct file as [e|[[|header rows] ending]]; cbn.
  - by exists ds, (Some e).
  - eexists ds, _. repeat split; eauto.
  - destruct (load_rows_spec rows ending (System.locations ds))
      as (catalog' & -> & Hkeys). cbn.
    eexists _, _. split; [done|]. split; [done|]. split; [done|].
    intros code. rewrite !ValidateRegion_true. apply Hkeys.
Qed.

(** X12: [LoadLocationData] never panics and never touches the
    distributors.  When the file cannot be opened, or holds no header, it
    returns the error and leaves the catalog alone.  Otherwise it returns
    the error that ended the reading (none at end of file), and the keys of
    the catalog are then the keys it had before together with the three keys
    of every record of six fields or more that follows the header: shorter
    records add nothing, and what was read before a reading error stays. *)
Theorem LoadLocationData_spec ds file :
  ∃ ds' err,
    LoadLocationData ds file = Ret (ds', err) ∧
    System.distributors ds' = System.distributors ds ∧
    match file with
    | inl e => ds' = ds ∧ err = Some e
    | inr reading =>
        match records reading with
        | [] => ds' = ds ∧ is_Some err
        | _ :: rows =>
            err = ending reading ∧
            ∀ code, System.ValidateRegion ds' code = true ↔
              System.ValidateRegion ds code = true ∨
              ∃ record, record ∈ rows ∧ (6 ≤ length record)%nat ∧
                        code ∈ row_keys record
        end
    end.
Proof. apply LoadLocationData_keys. Qed.

Lemma LoadLocationData_spec_witness :
  ∃ ds' err,
    LoadLocationData System.NewDistributionSystem
      (inr {| records := [["city"; "province"; "country"; "c"; "p"; "n"];
                          ["NYC"; "NY"; "US"; "New York"; "New York"; "United States"];
                          ["short"; "row"]];
              ending := None |}) = Ret (ds', err) ∧
    err = None ∧
    System.ValidateRegion ds' "NY-US" = true ∧
    System.ValidateRegion ds' "short" = false.
Proof.
  destruct (LoadLocationData_spec System.NewDistributionSystem
      (inr {| records := [["city"; "province"; "country"; "c"; "p"; "n"];
                          ["NYC"; "NY"; "US"; "New York"; "New York"; "United States"];
                          ["short"; "row"]];
              ending := None |})) as (ds' & err & Hrun & _ & Herr & _).
  exists ds', err. split; [exact Hrun|]. split; [exact Herr|].
  vm_compute in Hrun. injection Hrun as <- _. split; vm_compute; reflexivity.
Defined.

Lemma load_rows_untouched rows ending catalog code :
  (∀ record, record ∈ rows → (6 ≤ length record)%nat → code ∉ row_keys record) →
  ∃ catalog', load_rows rows ending catalog = Ret (catalog', ending) ∧
              catalog' !! code = catalog !! code.
Proof.
  revert catalog. induction rows as [|record rows IH]; intros catalog Hnot.
  - by exists catalog.
  - cbn [load_rows].
    destruct (row_location record) as [location|] eqn:Hloc.
    + rewrite (load_row_full _ _ _ Hloc). simpl.
      destruct (IH (load_record location catalog)) as (catalog' & -> & Hsame).
      { intros r Hr. apply Hnot. set_solver. }
      exists catalog'. split; [done|]. rewrite Hsame.
      apply load_record_other. rewrite <- (row_keys_location _ _ Hloc).
      apply Hnot; [set_solver|]. apply row_location_full. eauto.
    + rewrite (load_row_short _ _ Hloc). simpl.
      apply IH. intros r Hr. apply Hnot. set_solver.
Qed.

(** X13: the last record wins: a catalog key holds the location of the last
    record of six fields or more that is entered under it, whatever earlier
    records or the catalog held for that key. *)
Theorem catalog_last_record_wins ds header pre record post ending location code :
  row_location record = Some location →
  code ∈ row_keys record →
  (∀ later, later ∈ post → (6 ≤ length later)%nat → code ∉ row_keys later) →
  ∃ ds', LoadLocationData ds
           (inr {| records := header :: pre ++ record :: post; ending := ending |})
         = Ret (ds', ending) ∧
         System.locations ds' !! code = Some location.
Proof.
  intros Hloc Hcode Hlater. cbn.
  assert (∀ catalog, ∃ catalog',
            load_rows (pre ++ record :: post) ending catalog = Ret (catalog', ending) ∧
            catalog' !! code = Some location) as Hrows.
  { induction pre as [|r pre IH]; intros catalog; cbn [app load_rows].
    - rewrite (load_row_full _ _ _ Hloc). simpl.
      destruct (load_rows_untouched post ending (load_record location catalog) code Hlater)
        as (catalog' & -> & Hsame).
      exists catalog'. split; [done|]. rewrite Hsame.
      apply load_record_lookup. by rewrite <- (row_keys_location _ _ Hloc).
    - destruct (row_location r) as [l|] eqn:Hr.
      + rewrite (load_row_full _ _ _ Hr). simpl. apply IH.
      + rewrite (load_row_short _ _ Hr). simpl. apply IH. }
  destruct (Hrows (System.locations ds)) as (catalog' & -> & Hlook).
  cbn. eauto.
Qed.

Lemma catalog_last_record_wins_witness :
  ∃ ds', LoadLocationData System.NewDistributionSystem
           (inr {| records :=
                     ["h"; "h"; "h"; "h"; "h"; "h"]
                     :: [["NYC"; "NY"; "US"; "New York"; "New York"; "United States"]]
                     ++ ["LAX"; "CA"; "US"; "Los Angeles"; "California"; "USA"]
                     :: [["PARIS"; "IDF"; "FR"; "Paris"; "Ile-de-France"; "France"]];
                   ending := None |})
         = Ret (ds', None) ∧
         System.locations ds' !! "US" =
         Some {| CityCode := "LAX"; ProvinceCode := "CA"; CountryCode := "US";
                 CityName := "Los Angeles"; ProvinceName := "California";
                 CountryName := "USA" |}.
Proof.
  apply (catalog_last_record_wins System.NewDistributionSystem
           ["h"; "h"; "h"; "h"; "h"; "h"]
           [["NYC"; "NY"; "US"; "New York"; "New York"; "United States"]]
           ["LAX"; "CA"; "US"; "Los Angeles"; "California"; "USA"]
           [["PARIS"; "IDF"; "FR"; "Paris"; "Ile-de-France"; "France"]]
           None).
  - reflexivity.
  - simpl. set_solver.
  - intros later Hlater _. apply list_elem_of_singleton in Hlater as ->.
    simpl. set_solver.
Defined.

(** ** Catalog keys as region codes *)

Lemma Split_join a b :
  Split (a +:+ String hyphen b) hyphen = Split a hyphen ++ Split b hyphen.
Proof.
  induction a as [|c a IH]; simpl.
  - done.
  - destruct (Ascii.eqb c hyphen); [by rewrite IH|].
    rewrite IH. pose proof (Split_nonempty a hyphen).
    by destruct (Split a hyphen).
Qed.

Lemma Split_hyphen_free s : hyphen_free s = true → Split s hyphen = [s].
Proof.
  induction s as [|c s IH]; simpl; [done|].
  intros [Hc Hs]%andb_true_iff. apply negb_true_iff in Hc. rewrite Hc.
  by rewrite IH.
Qed.

Lemma catalog_keys_split city province country :
  hyphen_free city = true → hyphen_free province = true →
  hyphen_free country = true →
  Split (city +:+ "-" +:+ province +:+ "-" +:+ country) hyphen
    = [city; province; country] ∧
  Split (province +:+ "-" +:+ country) hyphen = [province; country] ∧
  Split country hyphen = [country].
Proof.
  intros Hc Hp Hk.
  assert (Split (province +:+ "-" +:+ country) hyphen = [province; country]) as Hpk.
  { change ("-" +:+ country) with (String hyphen country).
    by rewrite Split_join, !Split_hyphen_free. }
  split; [|split; [done | by apply Split_hyphen_free]].
  change ("-" +:+ province +:+ "-" +:+ country)
    with (String hyphen (province +:+ "-" +:+ country)).
  by rewrite Split_join, Hpk, Split_hyphen_free.
Qed.

(** X14: the keys the catalog is loaded under are region codes of the
    matching shape: when the three codes of a record hold no hyphen, its city
    key splits into the three codes, its province key into the last two and
    its country key into the last one; hence [isSubregion] places the city
    inside its province and its country and the province inside its country,
    and never the province inside the city. *)
Theorem catalog_keys_nest city province country :
  hyphen_free city = true → hyphen_free province = true →
  hyphen_free country = true →
  let cityKey := city +:+ "-" +:+ province +:+ "-" +:+ country in
  let provinceKey := province +:+ "-" +:+ country in
  Split cityKey hyphen = [city; province; country] ∧
  Split provinceKey hyphen = [province; country] ∧
  Split country hyphen = [country] ∧
  isSubregion (Split cityKey hyphen) (Split provinceKey hyphen) = Ret true ∧
  isSubregion (Split cityKey hyphen) (Split country hyphen) = Ret true ∧
  isSubregion (Split provinceKey hyphen) (Split country hyphen) = Ret true ∧
  isSubregion (Split provinceKey hyphen) (Split cityKey hyphen) = Ret false.
Proof.
  intros Hc Hp Hk cityKey provinceKey.
  destruct (catalog_keys_split city province country Hc Hp Hk) as (Hck & Hpk & Hkk).
  unfold cityKey, provinceKey. rewrite Hck, Hpk, Hkk.
  unfold isSubregion, str_eq. simpl. rewrite !String.eqb_refl. done.
Qed.

Lemma catalog_keys_nest_witness :
  Split "NYC-NY-US" hyphen = ["NYC"; "NY"; "US"] ∧
  Split "NY-US" hyphen = ["NY"; "US"] ∧
  Split "US" hyphen = ["US"] ∧
  isSubregion (Split "NYC-NY-US" hyphen) (Split "NY-US" hyphen) = Ret true ∧
  isSubregion (Split "NYC-NY-US" hyphen) (Split "US" hyphen) = Ret true ∧
  isSubregion (Split "NY-US" hyphen) (Split "US" hyphen) = Ret true ∧
  isSubregion (Split "NY-US" hyphen) (Split "NYC-NY-US" hyphen) = Ret false.
Proof.
  apply (catalog_keys_nest "NYC" "NY" "US"); reflexivity.
Defined.

(** X15: a root that includes a country is authorized for every key the
    catalog holds for a record of that country, city key, province key and
    country key alike, as long as none of its exclude rules contains the
    key; the codes of the record hold no hyphen. *)
Theorem country_include_covers_catalog ord fuel h d dist city province country key :
  range_ok ord →
  h !! d = Some dist → Parent dist = None →
  is_Some (Includes dist !! country) →
  hyphen_free city = true → hyphen_free province = true →
  hyphen_free country = true →
  key ∈ row_keys [city; province; country] →
  ¬ rule_matches key (Excludes dist) →
  HasPermission ord (S fuel) h d key = ([CallHasPermission d key], Ret true).
Proof.
  intros Hord Hd Hroot Hinc Hc Hp Hk Hkey Hex.
  destruct (catalog_keys_split city province country Hc Hp Hk)
    as (Hck & Hpk & Hkk).
  rewrite (HasPermission_unfold _ _ _ _ dist) by done. cbn zeta.
  rewrite <- (any_match_range ord fuel OverExcludes) in Hex by done.
  apply not_true_is_false in Hex. rewrite Hex.
  assert (rule_matches key (Includes dist)) as Hin.
  { exists country. split; [done|]. rewrite Hkk.
    simpl in Hkey. apply elem_of_cons in Hkey as [->|Hkey];
      [|apply elem_of_cons in Hkey as [->|Hkey];
        [|apply list_elem_of_singleton in Hkey as ->]].
    - rewrite Hck. unfold isSubregion, str_eq. simpl. by rewrite String.eqb_refl.
    - rewrite Hpk. unfold isSubregion, str_eq. simpl. by rewrite String.eqb_refl.
    - rewrite Hkk. unfold isSubregion, str_eq. simpl. by rewrite String.eqb_refl. }
  apply (any_match_range ord fuel OverIncludes) in Hin; [|done].
  by rewrite Hin, Hroot.
Qed.

(** * Persisted state *)

(** ** Loading *)

Lemma create_distributors_spec catalog entries h m :
  let '(h1, m1) := create_distributors catalog entries h m in
  h1 = h ++ ((λ e, loaded_distributor catalog e.1 e.2) <$> entries) ∧
  (∀ name, name ∉ entries.*1 → m1 !! name = m !! name) ∧
  (NoDup entries.*1 → ∀ i name data,
     entries !! i = Some (name, data) → m1 !! name = Some (length h + i)%nat).
Proof.
  revert h m. induction entries as [|[name data] entries IH]; intros h m.
  - cbn. split; [by rewrite app_nil_r|]. split; [done|]. by intros _ i.
  - cbn [create_distributors].
    specialize (IH (h ++ [loaded_distributor catalog name data])
                   (<[name := length h]> m)).
    destruct (create_distributors _ _ _ _) as [h1 m1].
    destruct IH as (-> & Hother & Hnew).
    split; [by rewrite <- app_assoc|]. split.
    + intros name' Hnot. rewrite fmap_cons, not_elem_of_cons in Hnot.
      destruct Hnot as [Hne Hnot].
      rewrite Hother by done. by rewrite lookup_insert_ne.
    + rewrite fmap_cons. intros [Hfresh Hnodup]%NoDup_cons [|i] name' data' Hi.
      * injection Hi as <- <-. rewrite Hother by done.
        rewrite lookup_insert_eq. f_equal. lia.
      * rewrite (Hnew Hnodup i name' data' Hi). rewrite length_app. simpl.
        f_equal. lia.
Qed.

Lemma link_parents_spec entries (m : gmap string ptr) (h : Heap) :
  NoDup entries.*1 →
  (∀ name data, (name, data) ∈ entries →
     ∃ d, m !! name = Some d ∧ is_Some (h !! d)) →
  (∀ n1 n2 d, n1 ∈ entries.*1 → n2 ∈ entries.*1 →
     m !! n1 = Some d → m !! n2 = Some d → n1 = n2) →
  ∃ h2, link_parents entries m h = Ret h2 ∧ length h2 = length h ∧
    (∀ name data d dist,
       (name, data) ∈ entries → m !! name = Some d → h !! d = Some dist →
       h2 !! d = Some
         match (if decide (Persist.ParentName data = "") then None
                else m !! Persist.ParentName data) with
         | Some parent => set_Parent (Some parent) dist
         | None => dist
         end) ∧
    (∀ d, (∀ name, name ∈ entries.*1 → m !! name ≠ Some d) → h2 !! d = h !! d).
Proof.
  revert h. induction entries as [|[name data] entries IH]; intros h Hnodup Hvalid Hinj.
  - exists h. split; [done|]. split; [done|]. split; [|done].
    intros name data d dist Hin. by apply elem_of_nil in Hin.
  - rewrite fmap_cons in Hnodup. apply NoDup_cons in Hnodup as [Hfresh Hnodup].
    destruct (Hvalid name data) as (d & Hd & [dist Hdist]); [set_solver|].
    assert (∀ name', name' ∈ entries.*1 → m !! name' ≠ Some d) as Hd_fresh.
    { intros name' Hin' Hd'.
      assert (name' = name) as -> by (eapply Hinj; [set_solver.. | done | done]).
      done. }
    (* the heap after this entry *)
    set (target := if decide (Persist.ParentName data = "") then None
                   else m !! Persist.ParentName data).
    set (h' := match target with
               | Some parent => <[d := set_Parent (Some parent) dist]> h
               | None => h
               end).
    assert (link_parents ((name, data) :: entries) m h = link_parents entries m h')
      as Hstep.
    { cbn [link_parents]. unfold h', target.
      destruct (String.eqb_spec (Persist.ParentName data) "") as [He|He]; simpl.
      - by rewrite decide_True.
      - rewrite decide_False by done.
        destruct (m !! Persist.ParentName data) as [parent|]; [|done].
        rewrite Hd. unfold deref. by rewrite Hdist. }
    assert (∀ q, q ≠ d → h' !! q = h !! q) as Hh'_other.
    { intros q Hq. unfold h'. destruct target; [|done].
      by rewrite list_lookup_insert_ne. }
    assert (h' !! d = Some match target with
                           | Some parent => set_Parent (Some parent) dist
                           | None => dist
                           end) as Hh'_d.
    { unfold h'. destruct target; [|done].
      apply list_lookup_insert_eq. by eapply lookup_lt_Some. }
    assert (length h' = length h) as Hlen.
    { unfold h'. destruct target; [apply length_insert | done]. }
    destruct (IH h') as (h2 & Hrun & Hlen2 & Htargets & Hothers).
    + done.
    + intros name' data' Hin'.
      destruct (Hvalid name' data') as (d' & Hd' & Hsome); [set_solver|].
      exists d'. split; [done|].
      destruct (decide (d' = d)) as [->|Hne]; [by rewrite Hh'_d|].
      by rewrite Hh'_other.
    + intros n1 n2 d' H1 H2. apply Hinj; set_solver.
    + exists h2. rewrite Hstep. split; [done|]. split; [congruence|]. split.
      * intros name' data' d' dist' Hin' Hd' Hdist'.
        apply elem_of_cons in Hin' as [[= -> ->]|Hin'].
        -- simplify_eq. rewrite (Hothers d Hd_fresh). apply Hh'_d.
        -- assert (d' ≠ d) as Hne.
           { intros ->. apply (Hd_fresh name'); [|done].
             apply list_elem_of_fmap. by exists (name', data'). }
           apply (Htargets name' data' d' dist' Hin' Hd').
           by rewrite Hh'_other.
      * intros q Hq. rewrite Hothers.
        -- apply Hh'_other. intros ->. apply (Hq name); [set_solver | done].
        -- intros name' Hin'. apply Hq. set_solver.
Qed.

Lemma loaded_linked catalog (m : gmap string ptr) name data :
  match (if decide (Persist.ParentName data = "") then None
         else m !! Persist.ParentName data) with
  | Some parent => set_Parent (Some parent) (loaded_distributor catalog name data)
  | None => loaded_distributor catalog name data
  end = loaded catalog m name data.
Proof.
  unfold loaded.
  by destruct (if decide (Persist.ParentName data = "") then None
               else m !! Persist.ParentName data).
Qed.

Lemma LoadState_decoded first second h ds data :
  data_order_ok first → data_order_ok second →
  ∃ h' ds',
    LoadState first second h ds (Decoded data) = Ret (h', ds', None) ∧
    System.locations ds' = System.locations ds ∧
    (∀ name, data !! name = None →
       System.distributors ds' !! name = System.distributors ds !! name) ∧
    (∀ p dist, h !! p = Some dist → h' !! p = Some dist) ∧
    (∀ name entry, data !! name = Some entry →
       ∃ p, System.distributors ds' !! name = Some p ∧ h !! p = None ∧
            h' !! p = Some (loaded (System.locations ds)
                              (System.distributors ds') name entry)) ∧
    (∀ n1 n2 p, is_Some (data !! n1) → is_Some (data !! n2) →
       System.distributors ds' !! n1 = Some p →
       System.distributors ds' !! n2 = Some p → n1 = n2) ∧
    (∀ p dist, h' !! p = Some dist →
       is_Some (h !! p) ∨
       ∃ name entry, data !! name = Some entry ∧
                     System.distributors ds' !! name = Some p).
Proof.
  intros Hfirst Hsecond. unfold LoadState.
  pose proof (create_distributors_spec (System.locations ds) (first data) h
                (System.distributors ds)) as Hcreate.
  destruct (create_distributors _ _ _ _) as [h1 m1].
  destruct Hcreate as (-> & Hother & Hnew).
  set (mk := λ e : string * Persist.DistributorData,
               loaded_distributor (System.locations ds) e.1 e.2) in *.
  assert (NoDup (first data).*1) as Hnodup1
    by (rewrite (Hfirst data); apply NoDup_fst_map_to_list).
  assert (NoDup (second data).*1) as Hnodup2
    by (rewrite (Hsecond data); apply NoDup_fst_map_to_list).
  specialize (Hnew Hnodup1).
  assert (∀ name entry, data !! name = Some entry →
            ∃ i, first data !! i = Some (name, entry) ∧
                 m1 !! name = Some (length h + i)%nat ∧
                 (h ++ (mk <$> first data)) !! (length h + i)%nat
                 = Some (loaded_distributor (System.locations ds) name entry))
    as Hplace.
  { intros name entry Hin.
    apply elem_of_map_to_list in Hin. rewrite <- (Hfirst data) in Hin.
    apply list_elem_of_lookup in Hin as [i Hi].
    exists i. split; [done|]. split; [by eapply Hnew|].
    rewrite lookup_app_r by lia.
    replace (length h + i - length h)%nat with i by lia.
    by rewrite list_lookup_fmap, Hi. }
  assert (∀ name entry, (name, entry) ∈ second data ↔ data !! name = Some entry)
    as Hmem2.
  { intros name entry. by rewrite (Hsecond data), elem_of_map_to_list. }
  assert (∀ n1 n2 p, is_Some (data !! n1) → is_Some (data !! n2) →
            m1 !! n1 = Some p → m1 !! n2 = Some p → n1 = n2) as Hinj.
  { intros n1 n2 p [e1 H1] [e2 H2] Hp1 Hp2.
    destruct (Hplace _ _ H1) as (i1 & Hi1 & Hm1 & _).
    destruct (Hplace _ _ H2) as (i2 & Hi2 & Hm2 & _).
    assert (i1 = i2) as -> by (simplify_eq; lia). by simplify_eq. }
  assert (∀ name, name ∈ (second data).*1 → is_Some (data !! name)) as Hdom2.
  { intros name [[n e] [-> Hin]]%list_elem_of_fmap. apply Hmem2 in Hin. eauto. }
  destruct (link_parents_spec (second data) m1 (h ++ (mk <$> first data)))
    as (h2 & -> & Hlen2 & Htargets & Hothers).
  { done. }
  { intros name entry Hin. apply Hmem2 in Hin.
    destruct (Hplace _ _ Hin) as (i & _ & Hm & Hobj). eauto. }
  { intros n1 n2 d H1 H2. apply Hinj; by apply Hdom2. }
  simpl. eexists _, _. split; [done|]. cbn [System.locations System.distributors].
  split; [done|]. split; [|split; [|split; [|split; [done|]]]].
  - intros name Hnone. apply Hother.
    intros [[n e] [Hn Hin]]%list_elem_of_fmap. simpl in Hn. subst n.
    rewrite (Hfirst data) in Hin. apply elem_of_map_to_list in Hin. congruence.
  - intros p dist Hp. rewrite Hothers; [by apply lookup_app_l_Some|].
    intros name Hin Hm. apply Hdom2 in Hin as [entry Hin].
    destruct (Hplace _ _ Hin) as (i & _ & Hm' & _).
    apply lookup_lt_Some in Hp. simplify_eq. lia.
  - intros name entry Hin.
    destruct (Hplace _ _ Hin) as (i & _ & Hm & Hobj).
    exists (length h + i)%nat. split; [done|].
    split; [apply lookup_ge_None; lia|].
    rewrite (Htargets name entry _ _ (proj2 (Hmem2 _ _) Hin) Hm Hobj).
    by rewrite loaded_linked.
  - intros p dist Hp. apply lookup_lt_Some in Hp.
    rewrite Hlen2, length_app, length_fmap in Hp.
    destruct (decide (p < length h)%nat) as [Hlt|Hge];
      [left; by apply lookup_lt_is_Some|right].
    destruct (lookup_lt_is_Some_2 (first data) (p - length h)) as [[name entry] Hi];
      [lia|].
    exists name, entry. split.
    + apply elem_of_map_to_list. rewrite <- (Hfirst data).
      by eapply list_elem_of_lookup_2.
    + rewrite (Hnew _ _ _ Hi). f_equal. lia.
Qed.

(** X16: [LoadState] on a decoded state file never panics and returns no
    error, whatever the two loops' visiting orders.  It leaves the catalog,
    the objects already in the heap and the names absent from the file as
    they were, and registers under every name of the file a new object of
    that name with the stored include and exclude sets, distinct names
    getting distinct objects and no other object being made; the parent of
    the object is the distributor registered under the stored parent name,
    and none when that name is empty or names no distributor.  An unreadable or undecodable file yields
    the error, an empty file no error, and neither changes anything. *)
Theorem LoadState_spec first second h ds data :
  data_order_ok first → data_order_ok second →
  (∃ h' ds',
    LoadState first second h ds (Decoded data) = Ret (h', ds', None) ∧
    System.locations ds' = System.locations ds ∧
    (∀ name, data !! name = None →
       System.distributors ds' !! name = System.distributors ds !! name) ∧
    (∀ p dist, h !! p = Some dist → h' !! p = Some dist) ∧
    (∀ name entry, data !! name = Some entry →
       ∃ p, System.distributors ds' !! name = Some p ∧ h !! p = None ∧
            h' !! p = Some (loaded (System.locations ds)
                              (System.distributors ds') name entry)) ∧
    (∀ n1 n2 p, is_Some (data !! n1) → is_Some (data !! n2) →
       System.distributors ds' !! n1 = Some p →
       System.distributors ds' !! n2 = Some p → n1 = n2) ∧
    (∀ p dist, h' !! p = Some dist →
       is_Some (h !! p) ∨
       ∃ name entry, data !! name = Some entry ∧
                     System.distributors ds' !! name = Some p)) ∧
  (∀ err, LoadState first second h ds (Unreadable err) = Ret (h, ds, Some err)) ∧
  (∀ err, LoadState first second h ds (Undecodable err) = Ret (h, ds, Some err)) ∧
  LoadState first second h ds EmptyFile = Ret (h, ds, None).
Proof.
  intros Hfirst Hsecond. split; [by apply LoadState_decoded | done].
Qed.

(** ** Saving *)

Lemma save_distributors_spec entries h acc :
  NoDup entries.*1 →
  (∀ name d, (name, d) ∈ entries → is_Some (saved h d)) →
  ∃ data, save_distributors entries h acc = Ret data ∧
    (∀ name d, (name, d) ∈ entries → data !! name = saved h d) ∧
    (∀ name, name ∉ entries.*1 → data !! name = acc !! name).
Proof.
  revert acc. induction entries as [|[name d] entries IH]; intros acc Hnodup Hvalid.
  - exists acc. split; [done|]. split; [|done].
    intros name d Hin. by apply elem_of_nil in Hin.
  - rewrite fmap_cons in Hnodup. apply NoDup_cons in Hnodup as [Hfresh Hnodup].
    destruct (Hvalid name d) as [rec Hrec]; [set_solver|].
    assert (∀ acc', save_distributors ((name, d) :: entries) h acc' =
                    save_distributors entries h (<[name := rec]> acc')) as Hstep.
    { intros acc'. cbn [save_distributors]. unfold saved in Hrec. unfold deref.
      destruct (h !! d) as [dist|]; [|done]. simpl in *.
      destruct (Parent dist) as [q|]; simpl in *.
      - destruct (h !! q) as [parent|]; [|done]. simpl in *. by injection Hrec as <-.
      - by injection Hrec as <-. }
    destruct (IH (<[name := rec]> acc) Hnodup) as (data & Hrun & Hin & Hout).
    { intros name' d' Hin'. apply (Hvalid name' d'). set_solver. }
    exists data. rewrite Hstep. split; [done|]. split.
    + intros name' d' [[= -> ->]|Hin']%elem_of_cons.
      * rewrite Hout by done. by rewrite lookup_insert_eq.
      * by apply Hin.
    + intros name' [Hne Hnot]%not_elem_of_cons.
      rewrite Hout by done. by rewrite lookup_insert_ne.
Qed.

Lemma SaveState_lookup o h ds :
  pointer_order_ok o →
  (∀ name p, System.distributors ds !! name = Some p → is_Some (saved h p)) →
  ∃ data, SaveState o h ds = Ret data ∧
    ∀ name, data !! name = System.distributors ds !! name ≫= saved h.
Proof.
  intros Ho Hvalid. unfold SaveState.
  assert (∀ name p, (name, p) ∈ o (System.distributors ds) ↔
                    System.distributors ds !! name = Some p) as Hmem.
  { intros name p. by rewrite (Ho _), elem_of_map_to_list. }
  destruct (save_distributors_spec (o (System.distributors ds)) h ∅)
    as (data & Hrun & Hin & Hout).
  { rewrite (Ho _). apply NoDup_fst_map_to_list. }
  { intros name p Hp. apply Hmem in Hp. eauto. }
  exists data. split; [done|]. intros name.
  destruct (System.distributors ds !! name) as [p|] eqn:Hp; simpl.
  - apply Hin. by apply Hmem.
  - rewrite Hout; [done|].
    intros [[n p] [Hn Hin']]%list_elem_of_fmap. simpl in Hn. subst n.
    apply Hmem in Hin'. congruence.
Qed.

Lemma well_formed_saved h ds name p :
  well_formed h ds → System.distributors ds !! name = Some p →
  ∃ dist, h !! p = Some dist ∧ Name dist = name ∧
    saved h p = Some
      {| Persist.Name := name;
         Persist.ParentName :=
           match Parent dist with
           | Some q => default "" (Name <$> h !! q)
           | None => ""
           end;
         Persist.Includes := Includes dist;
         Persist.Excludes := Excludes dist |} ∧
    (∀ q, Parent dist = Some q →
       ∃ parent, h !! q = Some parent ∧
                 System.distributors ds !! Name parent = Some q).
Proof.
  intros (Hreg & Hpar & _) Hp.
  destruct (Hreg _ _ Hp) as (dist & Hd & <-).
  exists dist. split; [done|]. split; [done|]. split.
  - unfold saved. rewrite Hd. simpl.
    destruct (Parent dist) as [q|] eqn:Hq; [|done].
    destruct (Hpar _ _ _ Hd Hq) as (parent & -> & _). done.
  - intros q Hq. by apply (Hpar _ _ _ Hd).
Qed.

Lemma SaveState_spec_lookup o h ds :
  pointer_order_ok o →
  well_formed h ds →
  ∃ data, SaveState o h ds = Ret data ∧
    ∀ name,
      data !! name =
      p ← System.distributors ds !! name;
      dist ← h !! p;
      Some {| Persist.Name := name;
              Persist.ParentName :=
                match Parent dist with
                | Some q => default "" (Name <$> h !! q)
                | None => ""
                end;
              Persist.Includes := Includes dist;
              Persist.Excludes := Excludes dist |}.
Proof.
  intros Ho Hwf.
  destruct (SaveState_lookup o h ds Ho) as (data & Hrun & Hdata).
  { intros name p Hp.
    destruct (well_formed_saved _ _ _ _ Hwf Hp) as (dist & _ & _ & -> & _). eauto. }
  exists data. split; [done|]. intros name. rewrite Hdata.
  destruct (System.distributors ds !! name) as [p|] eqn:Hp; simpl; [|done].
  destruct (well_formed_saved _ _ _ _ Hwf Hp) as (dist & -> & _ & -> & _). done.
Qed.

(** X17: in a well-formed state [SaveState] never panics, and the map it
    builds does not depend on the visiting order: it has exactly the
    registered names as keys, and under each the name of the distributor,
    the name of its parent (empty when it has none) and its include and
    exclude sets. *)
Theorem SaveState_spec o h ds :
  pointer_order_ok o →
  well_formed h ds →
  ∃ data, SaveState o h ds = Ret data ∧
    ∀ name,
      data !! name =
      p ← System.distributors ds !! name;
      dist ← h !! p;
      Some {| Persist.Name := name;
              Persist.ParentName :=
                match Parent dist with
                | Some q => default "" (Name <$> h !! q)
                | None => ""
                end;
              Persist.Includes := Includes dist;
              Persist.Excludes := Excludes dist |}.
Proof. apply SaveState_spec_lookup. Qed.

(** ** Saving and loading again *)

Lemma reload_same o first second h ds data catalog :
  pointer_order_ok o → data_order_ok first → data_order_ok second →
  well_formed h ds →
  System.distributors ds !! "" = None →
  SaveState o h ds = Ret data →
  ∃ h' ds',
    LoadState first second []
      {| System.distributors := ∅; System.locations := catalog |}
      (Decoded data) = Ret (h', ds', None) ∧
    System.locations ds' = catalog ∧
    same_distributors h ds h' ds' ∧
    (∀ name p', System.distributors ds' !! name = Some p' →
       ∃ entry, data !! name = Some entry ∧
         h' !! p' = Some (loaded catalog
                            (System.distributors ds') name entry)) ∧
    (∀ p' dist', h' !! p' = Some dist' →
       ∃ name, System.distributors ds' !! name = Some p').
Proof.
  intros Ho Hfirst Hsecond Hwf Hnoempty Hsave.
  destruct (SaveState_spec_lookup o h ds Ho Hwf) as (data' & Hsave' & Hdata).
  rewrite Hsave in Hsave'. injection Hsave' as <-.
  destruct (LoadState_decoded first second []
              {| System.distributors := ∅; System.locations := catalog |}
              data Hfirst Hsecond)
    as (h' & ds' & Hload & Hloc & Hnone & _ & Hsome & Hinj & Hall).
  cbn [System.distributors System.locations] in *.
  exists h', ds'. split; [done|]. split; [done|].
  assert (∀ name, System.distributors ds !! name = None →
                  System.distributors ds' !! name = None) as Hnone'.
  { intros name Hname. rewrite Hnone; [done|]. by rewrite Hdata, Hname. }
  split; [|split].
  - intros name.
    destruct (System.distributors ds !! name) as [p|] eqn:Hp;
      [|by rewrite Hnone'].
    destruct (well_formed_saved _ _ _ _ Hwf Hp) as (dist & Hd & Hnm & _ & Hpar).
    pose proof (Hdata name) as Hentry. rewrite Hp in Hentry. simpl in Hentry.
    rewrite Hd in Hentry. simpl in Hentry.
    destruct (Hsome _ _ Hentry) as (p' & -> & _ & Hobj).
    eexists dist, _. split; [done|]. split; [exact Hobj|].
    cbn. split; [done|]. split; [done|]. split; [done|].
    destruct (Parent dist) as [q|] eqn:Hq; [|done].
    destruct (Hpar q eq_refl) as (parent & Hparent & Hreg).
    rewrite Hparent. simpl.
    assert (Name parent ≠ "") as Hne by (intros He; rewrite He in Hreg; congruence).
    rewrite decide_False by done.
    pose proof (Hdata (Name parent)) as Hpentry. rewrite Hreg in Hpentry.
    simpl in Hpentry. rewrite Hparent in Hpentry. simpl in Hpentry.
    destruct (Hsome _ _ Hpentry) as (q' & Hq' & _). rewrite Hq'. eauto.
  - intros name p' Hp'.
    destruct (data !! name) as [entry|] eqn:Hentry.
    + destruct (Hsome _ _ Hentry) as (p'' & Hp'' & _ & Hobj).
      simplify_eq. eauto.
    + rewrite (Hnone _ Hentry) in Hp'. by rewrite lookup_empty in Hp'.
  - intros p' dist' Hp'. destruct (Hall _ _ Hp') as [Hold|(name & entry & _ & ?)];
      [by rewrite lookup_nil in Hold | eauto].
Qed.

Lemma same_distributors_lookup h ds h' ds' name p p' :
  same_distributors h ds h' ds' →
  System.distributors ds !! name = Some p →
  System.distributors ds' !! name = Some p' →
  ∃ dist dist',
    h !! p = Some dist ∧ h' !! p' = Some dist' ∧
    Includes dist' = Includes dist ∧ Excludes dist' = Excludes dist ∧
    match Parent dist, Parent dist' with
    | None, None => True
    | Some q, Some q' =>
        ∃ parentName, System.distributors ds !! parentName = Some q ∧
                      System.distributors ds' !! parentName = Some q'
    | _, _ => False
    end.
Proof.
  intros Hsame Hp Hp'. specialize (Hsame name). rewrite Hp, Hp' in Hsame.
  destruct Hsame as (dist & dist' & ? & ? & _ & ? & ? & ?). eauto 10.
Qed.

Lemma same_distributors_chain_ends h ds h' ds' n name p p' :
  same_distributors h ds h' ds' →
  System.distributors ds !! name = Some p →
  System.distributors ds' !! name = Some p' →
  chain_ends n h p = true → chain_ends n h' p' = true.
Proof.
  intros Hsame. revert name p p'.
  induction n as [|n IH]; intros name p p' Hp Hp'; [done|].
  destruct (same_distributors_lookup _ _ _ _ _ _ _ Hsame Hp Hp')
    as (dist & dist' & Hd & Hd' & _ & _ & Hpar).
  cbn [chain_ends]. rewrite Hd, Hd'.
  destruct (Parent dist) as [q|], (Parent dist') as [q'|]; try done.
  destruct Hpar as (parentName & Hq & Hq'). by apply (IH parentName).
Qed.

Lemma same_distributors_HasPermission ord ord' h ds h' ds' fuel name p p' region :
  range_ok ord → range_ok ord' →
  same_distributors h ds h' ds' →
  System.distributors ds !! name = Some p →
  System.distributors ds' !! name = Some p' →
  (HasPermission ord fuel h p region).2 = (HasPermission ord' fuel h' p' region).2.
Proof.
  intros Hord Hord' Hsame. revert name p p'.
  induction fuel as [|fuel IH]; intros name p p' Hp Hp'; [done|].
  destruct (same_distributors_lookup _ _ _ _ _ _ _ Hsame Hp Hp')
    as (dist & dist' & Hd & Hd' & Hinc & Hexc & Hpar).
  rewrite (HasPermission_unfold _ _ _ _ dist) by done.
  rewrite (HasPermission_unfold _ _ _ _ dist') by done. cbn zeta.
  rewrite Hinc, Hexc.
  rewrite (any_match_order ord ord' fuel fuel OverExcludes OverExcludes) by done.
  rewrite (any_match_order ord ord' fuel fuel OverIncludes OverIncludes) by done.
  destruct (any_match _ _); [done|]. destruct (any_match _ _); [|done].
  destruct (Parent dist) as [q|], (Parent dist') as [q'|]; try done.
  destruct Hpar as (parentName & Hq & Hq').
  specialize (IH parentName q q' Hq Hq').
  by destruct (HasPermission ord fuel h q region),
              (HasPermission ord' fuel h' q' region).
Qed.

Lemma reload_round_trip o o' first second h ds data catalog :
  pointer_order_ok o → pointer_order_ok o' →
  data_order_ok first → data_order_ok second →
  well_formed h ds →
  System.distributors ds !! "" = None →
  SaveState o h ds = Ret data →
  ∃ h' ds',
    LoadState first second []
      {| System.distributors := ∅; System.locations := catalog |}
      (Decoded data) = Ret (h', ds', None) ∧
    System.locations ds' = catalog ∧
    same_distributors h ds h' ds' ∧
    well_formed h' ds' ∧
    SaveState o' h' ds' = Ret data.
Proof.
  intros Ho Ho' Hfirst Hsecond Hwf Hnoempty Hsave.
  destruct (reload_same o first second h ds data catalog)
    as (h' & ds' & Hload & Hloc & Hsame & Hreg & Hall); [done..|].
  exists h', ds'. split; [done|]. split; [done|]. split; [done|].
  assert (well_formed h' ds') as Hwf'.
  { split; [|split].
    - intros name p' Hp'. destruct (Hreg _ _ Hp') as (entry & _ & Hobj). eauto.
    - intros p' dist' q' Hp' Hq'.
      destruct (Hall _ _ Hp') as [name Hname].
      destruct (Hreg _ _ Hname) as (entry & _ & Hobj). simplify_eq.
      cbn in Hq'. case_decide; [done|].
      destruct (Hreg _ _ Hq') as (entry' & _ & Hobj'). eauto.
    - intros p' dist' Hp'.
      destruct (Hall _ _ Hp') as [name Hname].
      pose proof (Hsame name) as Hn. rewrite Hname in Hn.
      destruct (System.distributors ds !! name) as [p|] eqn:Hp; [|done].
      destruct Hn as (dist & _ & Hd & _).
      destruct Hwf as (_ & _ & Hacyc). destruct (Hacyc _ _ Hd) as [n Hn].
      exists n. by eapply same_distributors_chain_ends. }
  split; [done|].
  destruct (SaveState_spec_lookup o h ds Ho Hwf) as (data0 & Hsave0 & Hdata).
  rewrite Hsave in Hsave0. injection Hsave0 as <-.
  destruct (SaveState_spec_lookup o' h' ds' Ho' Hwf') as (data' & -> & Hdata').
  f_equal. apply map_eq. intros name. rewrite Hdata', Hdata.
  pose proof (Hsame name) as Hn.
  destruct (System.distributors ds !! name) as [p|] eqn:Hp,
           (System.distributors ds' !! name) as [p'|] eqn:Hp'; try done.
  destruct Hn as (dist & dist' & Hd & Hd' & _ & Hinc & Hexc & Hpar).
  simpl. rewrite Hd, Hd'. simpl. f_equal. f_equal; [|done..].
  destruct (Parent dist) as [q|] eqn:Hq, (Parent dist') as [q'|]; try done.
  destruct Hpar as (parentName & Hqn & Hqn').
  destruct (well_formed_saved _ _ _ _ Hwf Hqn) as (parent & -> & <- & _).
  destruct (well_formed_saved _ _ _ _ Hwf' Hqn') as (parent' & -> & Hnm' & _).
  simpl. by rewrite Hnm'.
Qed.

(** X18: what is saved can be loaded back.  For a well-formed state in
    which the empty string names no distributor, [LoadState] on the map that
    [SaveState] built, run on a system that holds only a catalog, returns
    no error and yields a state with the same distributors: the same names,
    rule sets and parent names.  That state is well formed again, and
    [SaveState] builds from it the very map that was loaded. *)
Theorem save_then_load o o' first second h ds data catalog :
  pointer_order_ok o → pointer_order_ok o' →
  data_order_ok first → data_order_ok second →
  well_formed h ds →
  System.distributors ds !! "" = None →
  SaveState o h ds = Ret data →
  ∃ h' ds',
    LoadState first second []
      {| System.distributors := ∅; System.locations := catalog |}
      (Decoded data) = Ret (h', ds', None) ∧
    System.locations ds' = catalog ∧
    same_distributors h ds h' ds' ∧
    well_formed h' ds' ∧
    SaveState o' h' ds' = Ret data.
Proof. apply reload_round_trip. Qed.

(** X19: the answers depend on names, rule sets and parent names only: two
    states that hold the same distributors over the same catalog give the
    same result, error or answer, to every [CheckPermission], whatever the
    addresses of the objects and the visiting orders. *)
Theorem same_distributors_same_answers ord ord' fuel h ds h' ds' name region :
  range_ok ord → range_ok ord' →
  same_distributors h ds h' ds' →
  System.locations ds' = System.locations ds →
  (System.CheckPermission ord fuel h ds name region).2 =
  (System.CheckPermission ord' fuel h' ds' name region).2.
Proof.
  intros Hord Hord' Hsame Hloc.
  unfold System.CheckPermission, System.ValidateRegion. rewrite Hloc.
  pose proof (Hsame name) as Hn.
  destruct (System.distributors ds !! name) as [p|] eqn:Hp,
           (System.distributors ds' !! name) as [p'|] eqn:Hp'; try done.
  destruct (negb _); [done|].
  pose proof (same_distributors_HasPermission ord ord' h ds h' ds' fuel name p p'
                region Hord Hord' Hsame Hp Hp') as Heq.
  destruct (HasPermission ord fuel h p region) as [t o],
           (HasPermission ord' fuel h' p' region) as [t' o'].
  cbn [snd] in Heq. subst o'. by destruct o.
Qed.

(** ** The sample persisted states *)

Lemma data_listed_ok : data_order_ok data_listed.
Proof. by intros m. Qed.

Lemma data_reversed_ok : data_order_ok data_reversed.
Proof. intros m. apply reverse_Permutation. Qed.

Lemma pointers_listed_ok : pointer_order_ok pointers_listed.
Proof. by intros m. Qed.

Lemma pointers_reversed_ok : pointer_order_ok pointers_reversed.
Proof. intros m. apply reverse_Permutation. Qed.

Lemma ruled_names name p :
  System.distributors ruled_ds !! name = Some p →
  (name = "ROOT" ∧ p = 0%nat) ∨ (name = "KID" ∧ p = 1%nat).
Proof.
  unfold ruled_ds. cbn [System.distributors].
  intros [[<- <-]|[_ Hp]]%lookup_insert_Some; [by left|].
  apply lookup_singleton_Some in Hp as [<- <-]. by right.
Qed.

Lemma ruled_well_formed : well_formed ruled_heap ruled_ds.
Proof.
  split; [|split].
  - intros name p [[-> ->]|[-> ->]]%ruled_names; eexists; split; reflexivity.
  - intros [|[|p]] dist q; simpl; try done; intros [= <-]; simpl; [done|].
    intros [= <-]. eexists. split; reflexivity.
  - intros [|[|p]] dist; simpl; try done; intros _.
    + by exists 1%nat.
    + by exists 2%nat.
Qed.

Lemma ruled_swapped_same :
  same_distributors ruled_heap ruled_ds swapped_heap swapped_ds.
Proof.
  intros name. unfold ruled_ds, swapped_ds. cbn [System.distributors].
  destruct (decide (name = "ROOT")) as [->|Hroot].
  { rewrite !lookup_insert_eq. eexists _, _. repeat split; reflexivity || done. }
  rewrite !lookup_insert_ne by done.
  destruct (decide (name = "KID")) as [->|Hkid].
  { rewrite !lookup_singleton_eq. eexists _, _.
    repeat split; try reflexivity. simpl. exists "ROOT". split; reflexivity. }
  by rewrite !lookup_singleton_ne.
Qed.

Lemma country_include_covers_catalog_witness :
  HasPermission ord_mixed 1 ruled_heap 0%nat "NYC-NY-US" =
  ([CallHasPermission 0%nat "NYC-NY-US"], Ret true).
Proof.
  apply (country_include_covers_catalog ord_mixed 0 ruled_heap 0%nat
           {| Name := "ROOT"; Parent := None; Includes := rules ["US"; "IN"];
              Excludes := rules ["TX-US"]; Locations := ∅ |}
           "NYC" "NY" "US" "NYC-NY-US").
  - apply ord_mixed_ok.
  - reflexivity.
  - reflexivity.
  - exists true. vm_compute. reflexivity.
  - reflexivity.
  - reflexivity.
  - reflexivity.
  - simpl. set_solver.
  - rewrite rule_matches_listed. vm_compute. discriminate.
Defined.

Lemma LoadState_spec_witness :
  ∃ h' ds',
    LoadState data_listed data_reversed [] System.NewDistributionSystem
      (Decoded odd_data) = Ret (h', ds', None) ∧
    (∃ p, System.distributors ds' !! "SELF" = Some p ∧
          (Name <$> h' !! p) = Some "SELF" ∧
          (Parent <$> h' !! p) = Some (Some p)) ∧
    (∃ p, System.distributors ds' !! "ORPHAN" = Some p ∧
          (Parent <$> h' !! p) = Some None).
Proof.
  destruct (proj1 (LoadState_spec data_listed data_reversed []
                     System.NewDistributionSystem odd_data
                     data_listed_ok data_reversed_ok))
    as (h' & ds' & Hload & _ & _ & _ & Hsome & _).
  exists h', ds'. split; [exact Hload|]. split.
  - destruct (Hsome "SELF" _ eq_refl) as (p & Hp & _ & Hobj).
    exists p. rewrite Hobj. split; [exact Hp|]. split; [reflexivity|].
    unfold loaded. cbn [fmap option_fmap option_map Parent Persist.ParentName].
    rewrite decide_False by discriminate. by rewrite Hp.
  - destruct (Hsome "ORPHAN" _ eq_refl) as (p & Hp & _ & Hobj).
    exists p. rewrite Hobj. split; [exact Hp|].
    unfold loaded. cbn [fmap option_fmap option_map Parent Persist.ParentName].
    rewrite decide_False by discriminate.
    vm_compute in Hload. injection Hload as _ <-. reflexivity.
Defined.

Lemma SaveState_spec_witness :
  ∃ data, SaveState pointers_reversed ruled_heap ruled_ds = Ret data ∧
          (Persist.ParentName <$> data !! "KID") = Some "ROOT" ∧
          (Persist.ParentName <$> data !! "ROOT") = Some "" ∧
          data !! "NOBODY" = None.
Proof.
  destruct (SaveState_spec pointers_reversed ruled_heap ruled_ds
              pointers_reversed_ok ruled_well_formed) as (data & Hsave & Hdata).
  exists data. split; [exact Hsave|].
  rewrite !Hdata. repeat split; vm_compute; reflexivity.
Defined.

Lemma save_then_load_witness :
  ∃ h' ds',
    LoadState data_reversed data_listed []
      {| System.distributors := ∅; System.locations := sample_catalog |}
      (Decoded ruled_data) = Ret (h', ds', None) ∧
    System.locations ds' = sample_catalog ∧
    same_distributors ruled_heap ruled_ds h' ds' ∧
    well_formed h' ds' ∧
    SaveState pointers_reversed h' ds' = Ret ruled_data.
Proof.
  apply (save_then_load pointers_listed pointers_reversed data_reversed data_listed
           ruled_heap ruled_ds ruled_data sample_catalog).
  - apply pointers_listed_ok.
  - apply pointers_reversed_ok.
  - apply data_reversed_ok.
  - apply data_listed_ok.
  - apply ruled_well_formed.
  - vm_compute. reflexivity.
  - vm_compute. reflexivity.
Defined.

Lemma same_distributors_same_answers_witness :
  (System.CheckPermission ord_listed 3 ruled_heap ruled_ds "KID" "LAX-CA-US").2 =
  (System.CheckPermission ord_mixed 3 swapped_heap swapped_ds "KID" "LAX-CA-US").2.
Proof.
  apply (same_distributors_same_answers ord_listed ord_mixed 3
           ruled_heap ruled_ds swapped_heap swapped_ds "KID" "LAX-CA-US").
  - apply ord_listed_ok.
  - apply ord_mixed_ok.
  - apply ruled_swapped_same.
  - reflexivity.
Defined.

(** * How the operations compose *)

Lemma range_empty ord n l : range_ok ord → ord n l ∅ = [].
Proof.
  intros Hord. apply Permutation_nil_r. symmetry.
  by rewrite (Hord n l ∅), map_to_list_empty.
Qed.

Lemma HasPermission_app ord fuel (h k : Heap) p region :
  (∀ q dist q', h !! q = Some dist → Parent dist = Some q' → is_Some (h !! q')) →
  is_Some (h !! p) →
  HasPermission ord fuel (h ++ k) p region = HasPermission ord fuel h p region.
Proof.
  intros Hvalid. revert p. induction fuel as [|fuel IH]; intros p [dist Hp]; [done|].
  rewrite (HasPermission_unfold _ _ (h ++ k) _ dist) by (by apply lookup_app_l_Some).
  rewrite (HasPermission_unfold _ _ h _ dist) by done. cbn zeta.
  destruct (any_match _ _); [done|]. destruct (any_match _ _); [|done].
  destruct (Parent dist) as [q|] eqn:Hq; [|done].
  rewrite IH; [done|]. by eapply Hvalid.
Qed.

Lemma HasPermission_off_chain ord n (h : Heap) d dist' q nodes region :
  chain n h q = Some nodes → d ∉ nodes →
  HasPermission ord n (<[d := dist']> h) q region = HasPermission ord n h q region.
Proof.
  revert q nodes. induction n as [|n IH]; intros q nodes Hch Hd; [done|].
  destruct (chain_head _ _ _ _ Hch) as [rest ->].
  apply not_elem_of_cons in Hd as [Hne Hd].
  cbn [chain] in Hch. destruct (h !! q) as [dist|] eqn:Hq; [|done].
  rewrite (HasPermission_unfold _ _ (<[d := dist']> h) _ dist)
    by (by rewrite list_lookup_insert_ne).
  rewrite (HasPermission_unfold _ _ h _ dist) by done. cbn zeta.
  destruct (any_match _ _); [done|]. destruct (any_match _ _); [|done].
  destruct (Parent dist) as [p|]; [|done].
  destruct (chain n h p) as [rest'|] eqn:Hp; [|done]. injection Hch as <-.
  by rewrite (IH p rest').
Qed.

(** X20: a distributor just registered is authorized nowhere: after
    [AddDistributor] has returned no error, [CheckPermission] answers false
    for the new name on every region of the catalog, without consulting the
    parent it was registered under. *)
Theorem new_distributor_is_denied ord fuel h ds name parentName h' ds' region :
  range_ok ord →
  System.AddDistributor h ds name parentName = (h', ds', None) →
  is_Some (System.locations ds !! region) →
  ∃ p, System.distributors ds' !! name = Some p ∧
       System.CheckPermission ord (S fuel) h' ds' name region =
       ([CallHasPermission p region], Ret (false, None)).
Proof.
  intros Hord Hadd [loc Hregion].
  assert (∃ parent, (h', ds') = (System.register h ds name parent).1) as [parent Hreg].
  { unfold System.AddDistributor in Hadd.
    destruct (System.distributors ds !! name); [done|].
    destruct (negb _).
    - destruct (System.distributors ds !! parentName) as [q|]; [|done].
      exists (Some q). by rewrite Hadd.
    - exists None. by rewrite Hadd. }
  unfold System.register in Hreg. cbn in Hreg. injection Hreg as -> ->.
  exists (length h). unfold System.CheckPermission, System.ValidateRegion.
  cbn [System.distributors System.locations].
  rewrite lookup_insert_eq, Hregion. cbn [negb].
  erewrite HasPermission_unfold; [|by rewrite lookup_app_r, Nat.sub_diag].
  cbn. by rewrite !range_empty.
Qed.

Lemma new_distributor_is_denied_witness :
  ∃ p, System.distributors
         (System.AddDistributor ruled_heap ruled_ds "NEW" "ROOT").1.2 !! "NEW" = Some p ∧
       System.CheckPermission ord_mixed 1
         (System.AddDistributor ruled_heap ruled_ds "NEW" "ROOT").1.1
         (System.AddDistributor ruled_heap ruled_ds "NEW" "ROOT").1.2 "NEW" "CA-US" =
       ([CallHasPermission p "CA-US"], Ret (false, None)).
Proof.
  apply (new_distributor_is_denied ord_mixed 0 ruled_heap ruled_ds "NEW" "ROOT").
  - apply ord_mixed_ok.
  - vm_compute. reflexivity.
  - eexists. vm_compute. reflexivity.
Defined.

(** X21: registering a distributor changes nothing for the others: in a
    well-formed state, whatever [AddDistributor] returns, [CheckPermission]
    gives afterwards, for every name registered before and every region,
    exactly the run it gave before. *)
Theorem AddDistributor_keeps_answers ord fuel h ds name parentName other region :
  well_formed h ds →
  is_Some (System.distributors ds !! other) →
  System.CheckPermission ord fuel
    (System.AddDistributor h ds name parentName).1.1
    (System.AddDistributor h ds name parentName).1.2 other region =
  System.CheckPermission ord fuel h ds other region.
Proof.
  intros (Hreg & Hpar & _) [p Hp].
  assert (∀ parent, System.distributors ds !! name = None →
    System.CheckPermission ord fuel
      (System.register h ds name parent).1.1
      (System.register h ds name parent).1.2 other region =
    System.CheckPermission ord fuel h ds other region) as Hframe.
  { intros parent Hname. unfold System.register, System.CheckPermission,
      System.ValidateRegion. cbn [fst snd System.distributors System.locations].
    rewrite lookup_insert_ne by congruence. rewrite Hp.
    destruct (negb _); [done|].
    rewrite HasPermission_app; [done| |].
    - intros q dist q' Hq Hq'. destruct (Hpar _ _ _ Hq Hq') as (? & -> & _). eauto.
    - destruct (Hreg _ _ Hp) as (? & -> & _). eauto. }
  unfold System.AddDistributor.
  destruct (System.distributors ds !! name) eqn:Hname; [done|].
  destruct (negb _); [|by apply Hframe].
  destruct (System.distributors ds !! parentName); [by apply Hframe | done].
Qed.

Lemma AddDistributor_keeps_answers_witness :
  System.CheckPermission ord_mixed 3
    (System.AddDistributor ruled_heap ruled_ds "NEW" "ROOT").1.1
    (System.AddDistributor ruled_heap ruled_ds "NEW" "ROOT").1.2 "KID" "LAX-CA-US" =
  System.CheckPermission ord_mixed 3 ruled_heap ruled_ds "KID" "LAX-CA-US".
Proof.
  apply (AddDistributor_keeps_answers ord_mixed 3 ruled_heap ruled_ds "NEW" "ROOT"
           "KID" "LAX-CA-US").
  - apply ruled_well_formed.
  - exists 1%nat. vm_compute. reflexivity.
Defined.

(** X22: a rule added to one distributor touches only that distributor and
    its descendants: whatever [AddPermission] returns, the run of
    [HasPermission] on a distributor whose parent chain does not pass through
    the changed one is afterwards what it was before, for every region. *)
Theorem AddPermission_is_local ord ord' fuel fuel' h d code isInclude t h' e
    q nodes region :
  AddPermission ord fuel h d code isInclude = (t, Ret (h', e)) →
  chain fuel' h q = Some nodes → d ∉ nodes →
  HasPermission ord' fuel' h' q region = HasPermission ord' fuel' h q region.
Proof.
  intros Hrun Hch Hd. destruct e as [e|].
  - by rewrite (AddPermission_error_unchanged _ _ _ _ _ _ _ _ _ Hrun).
  - apply AddPermission_success in Hrun as (dist & _ & -> & _).
    destruct isInclude; by eapply HasPermission_off_chain.
Qed.

Lemma AddPermission_is_local_witness :
  HasPermission ord_mixed 2
    (with_exclude ruled_heap 1%nat
       {| Name := "KID"; Parent := Some 0%nat; Includes := rules ["CA-US"; "TX-US"];
          Excludes := rules ["SFO-CA-US"]; Locations := ∅ |} "CA-US")
    0%nat "LAX-CA-US" =
  HasPermission ord_mixed 2 ruled_heap 0%nat "LAX-CA-US".
Proof.
  apply (AddPermission_is_local ord_listed ord_mixed 2 2 ruled_heap 1%nat "CA-US"
           false [CallHasPermission 0%nat "CA-US"] _ None 0%nat [0%nat] "LAX-CA-US").
  - vm_compute. reflexivity.
  - reflexivity.
  - set_solver.
Defined.

(** * The command line *)









Lemma prefix_append p s : String.prefix p (p +:+ s) = true.
Proof.
  induction p as [|a p IH]; simpl; [by destruct s|].
  by destruct (ascii_dec a a).
Qed.

Lemma save_error_line e : is_error_line ("Error saving state: " +:+ e) = false.
Proof.
  unfold is_error_line. rewrite (prefix_append "Error saving state: " e).
  apply andb_false_r.
Qed.

Lemma finish_saved_iff os fs fl h ds cmdErr out eff :
  Forall (λ line, is_error_line line = false) out →
  finish os fs fl h ds cmdErr out = Ret eff →
  (is_Some (CLI.saved eff) ↔
   CLI.command fl ≠ "check" ∧ CLI.command fl ≠ "list" ∧
   Forall (λ line, is_error_line line = false) (CLI.printed eff)).
Proof.
  intros Hout. unfold finish. destruct cmdErr as [e|].
  - intros [= <-]. cbn [CLI.saved CLI.printed].
    rewrite Forall_app, Forall_singleton.
    split; [by intros [? ?]|]. by intros (_ & _ & _ & ?).
  - destruct (String.eqb_spec (CLI.command fl) "check") as [Hc|Hc]; cbn [negb andb].
    { intros [= <-]. cbn [CLI.saved CLI.printed].
      split; [by intros [? ?] | by intros (? & _)]. }
    destruct (String.eqb_spec (CLI.command fl) "list") as [Hl|Hl]; cbn [negb].
    { intros [= <-]. cbn [CLI.saved CLI.printed].
      split; [by intros [? ?] | by intros (_ & ? & _)]. }
    destruct (SaveState _ h ds) as [data| |]; cbn [mbind outcome_bind]; [|done..].
    intros [= <-]. cbn [CLI.saved CLI.printed]. split; [|eauto]. intros _.
    split; [done|]. split; [done|]. apply Forall_app. split; [done|].
    destruct (CLI.save_error fs); [|done].
    apply Forall_singleton, save_error_line.
Qed.

(** X25: a run comes to save the state exactly when it reports no failure:
    whenever [main] comes to its end, it has built the map for the state
    file if and only if the command is neither [check] nor [list] and no
    line it printed reports an error of loading or of the command. *)
Theorem main_saves_unless_error os fuel fs fl eff :
  main os fuel fs fl = Ret eff →
  (is_Some (CLI.saved eff) ↔
   CLI.command fl ≠ "check" ∧ CLI.command fl ≠ "list" ∧
   Forall (λ line, is_error_line line = false) (CLI.printed eff)).
Proof.
  assert (∀ line, is_error_line line = true →
            is_Some (CLI.saved {| CLI.printed := [line]; CLI.saved := None |}) ↔
            CLI.command fl ≠ "check" ∧ CLI.command fl ≠ "list" ∧
            Forall (λ line, is_error_line line = false)
              (CLI.printed {| CLI.printed := [line]; CLI.saved := None |}))
    as Hstop.
  { intros line Hline. cbn [CLI.saved CLI.printed]. rewrite Forall_singleton.
    split; [by intros [? ?]|]. intros (_ & _ & ?). congruence. }
  unfold main. intros Hmain.
  destruct (LoadLocationData _ _) as [[sys [e|]]| |];
    cbn [mbind outcome_bind] in Hmain; try done.
  { injection Hmain as <-. by apply Hstop; vm_compute. }
  destruct (LoadState _ _ _ _ _) as [[[h ds] [e|]]| |];
    cbn [mbind outcome_bind] in Hmain; try done.
  { injection Hmain as <-. by apply Hstop; vm_compute. }
  destruct (String.eqb_spec (CLI.command fl) "list") as [Hlist|Hlist].
  { destruct (ListDistributors _ _ h ds); cbn [mbind outcome_bind] in Hmain;
      [|done..].
    injection Hmain as <-. cbn [CLI.saved CLI.printed].
    split; [by intros [? ?] | by intros (_ & ? & _)]. }
  destruct (String.eqb (CLI.command fl) "add-distributor").
  { destruct (String.eqb (CLI.distributorName fl) "").
    { injection Hmain as <-. by apply Hstop; vm_compute. }
    destruct (System.AddDistributor h ds _ _) as [[h' ds'] [e|]];
      (eapply finish_saved_iff; [|done]); [done|].
    by apply Forall_singleton; vm_compute. }
  destruct (String.eqb (CLI.command fl) "add-permission").
  { destruct (_ || _).
    { injection Hmain as <-. by apply Hstop; vm_compute. }
    destruct (System.AddPermission _ fuel h ds _ _ _).2 as [[h' [e|]]| |];
      cbn [mbind outcome_bind] in Hmain; try done;
      (eapply finish_saved_iff; [|done]); [done|].
    by apply Forall_singleton; vm_compute. }
  destruct (String.eqb (CLI.command fl) "check").
  { destruct (_ || _).
    { injection Hmain as <-. by apply Hstop; vm_compute. }
    destruct (System.CheckPermission _ fuel h ds _ _).2 as [[b [e|]]| |];
      cbn [mbind outcome_bind] in Hmain; try done.
    { injection Hmain as <-. by apply Hstop; vm_compute. }
    destruct (System.locations ds !! CLI.region fl);
      cbn [mbind outcome_bind] in Hmain; [|done].
    eapply finish_saved_iff; [|done].
    repeat (apply Forall_cons; split; [by vm_compute|]). done. }
  eapply finish_saved_iff; [|done].
  unfold usage. repeat (apply Forall_cons; split; [by vm_compute|]). done.
Qed.

Lemma Distributor_catalog h ds name parentName h' ds' :
  System.AddDistributor h ds name parentName = (h', ds', None) →
  ∃ p dist, System.distributors ds' !! name = Some p ∧ h' !! p = Some dist ∧
            Locations dist = System.locations ds'.
Proof.
  intros Hadd.
  assert (∃ parent, (h', ds') = (System.register h ds name parent).1) as [parent Hreg].
  { unfold System.AddDistributor in Hadd.
    destruct (System.distributors ds !! name); [done|].
    destruct (negb _).
    - destruct (System.distributors ds !! parentName) as [q|]; [|done].
      exists (Some q). by rewrite Hadd.
    - exists None. by rewrite Hadd. }
  unfold System.register in Hreg. cbn in Hreg. injection Hreg as -> ->.
  eexists (length h), _. cbn [System.distributors System.locations].
  split; [apply lookup_insert_eq|].
  split; [by rewrite lookup_app_r, Nat.sub_diag|]. done.
Qed.

(** X26: a distributor validates what the system validates: for the object
    that a successful [AddDistributor] registers, the per-distributor
    [ValidateRegion] of the first version returns, for every region code,
    what the system's [ValidateRegion] returns. *)
Theorem Distributor_validates_like_system h ds name parentName h' ds' region :
  System.AddDistributor h ds name parentName = (h', ds', None) →
  ∃ p, System.distributors ds' !! name = Some p ∧
       ValidateRegion h' p region = Ret (System.ValidateRegion ds' region).
Proof.
  intros Hadd.
  destruct (Distributor_catalog _ _ _ _ _ _ Hadd) as (p & dist & Hp & Hd & Hloc).
  exists p. split; [done|].
  unfold ValidateRegion, System.ValidateRegion, deref. rewrite Hd. simpl.
  by rewrite Hloc.
Qed.

(** ** The sample runs *)




Example check_run :
  main sample_orders 3 sample_files check_flags =
  Ret {| CLI.printed := [ "Permission check for KID:";
                          "Region: LAX-CA-US (Los Angeles, California, United States)";
                          "Result: true" ];
         CLI.saved := None |}.
Proof. vm_compute. reflexivity. Qed.

Example denied_run :
  main sample_orders 3 sample_files denied_permission_flags =
  Ret {| CLI.printed := [ "Error: parent distributor does not have permission for: FR" ];
         CLI.saved := None |}.
Proof. vm_compute. reflexivity. Qed.



Lemma main_saves_unless_error_witness :
  ∃ eff,
    main sample_orders 3 sample_files denied_permission_flags = Ret eff ∧
    (is_Some (CLI.saved eff) ↔
     CLI.command denied_permission_flags ≠ "check" ∧
     CLI.command denied_permission_flags ≠ "list" ∧
     Forall (λ line, is_error_line line = false) (CLI.printed eff)).
Proof.
  destruct (main sample_orders 3 sample_files denied_permission_flags)
    as [eff| |] eqn:Hmain; [|vm_compute in Hmain; discriminate..].
  exists eff. split; [reflexivity|].
  exact (main_saves_unless_error sample_orders 3 sample_files
           denied_permission_flags eff Hmain).
Defined.

Lemma Distributor_validates_like_system_witness :
  ∃ p, System.distributors
         (System.AddDistributor ruled_heap ruled_ds "NEW" "ROOT").1.2 !! "NEW" = Some p ∧
       ValidateRegion (System.AddDistributor ruled_heap ruled_ds "NEW" "ROOT").1.1 p "NY-US"
       = Ret (System.ValidateRegion
                (System.AddDistributor ruled_heap ruled_ds "NEW" "ROOT").1.2 "NY-US").
Proof.
  apply (Distributor_validates_like_system ruled_heap ruled_ds "NEW" "ROOT").
  vm_compute. reflexivity.
Defined.

Lemma facade_well_formed_ruled_witness :
  well_formed (System.AddDistributor ruled_heap ruled_ds "NEW" "KID").1.1
              (System.AddDistributor ruled_heap ruled_ds "NEW" "KID").1.2.
Proof.
  exact (proj1 (proj2 (facade_keeps_well_formed ord_listed 0 ruled_heap ruled_ds)
                  ruled_well_formed) "NEW" "KID").
Defined.


(** ** Listing *)

Lemma list_distributor_lines rules_in h ds name d dist :
  (∀ m : gmap string bool, rules_in m ≡ₚ (map_to_list m).*1) →
  well_formed h ds → h !! d = Some dist →
  ∃ lines, list_distributor rules_in h name d = Ret lines ∧
    ("- " +:+ name +:+ " (Parent: "
       +:+ match Parent dist with
           | Some q => default "" (Name <$> h !! q)
           | None => "none"
           end +:+ ")") ∈ lines ∧
    (∀ region, is_Some (Includes dist !! region) ∨ is_Some (Excludes dist !! region) →
               ("    - " +:+ region) ∈ lines).
Proof.
  intros Hrules (_ & Hpar & _) Hd. unfold list_distributor.
  assert (deref h d = Ret dist) as -> by (unfold deref; by rewrite Hd).
  cbn [mbind outcome_bind].
  assert (∀ (m : gmap string bool) region,
            is_Some (m !! region) → region ∈ rules_in m) as Hin.
  { intros m region [v Hv]. rewrite (Hrules m). apply list_elem_of_fmap.
    exists (region, v). split; [done|]. by apply elem_of_map_to_list. }
  assert (∀ parentName : string,
    ("- " +:+ name +:+ " (Parent: " +:+ parentName +:+ ")")
      ∈ ["- " +:+ name +:+ " (Parent: " +:+ parentName +:+ ")"; "  Includes:"]
        ++ ((λ region, "    - " +:+ region) <$> rules_in (Includes dist))
        ++ ["  Excludes:"]
        ++ ((λ region, "    - " +:+ region) <$> rules_in (Excludes dist))
        ++ [""] ∧
    (∀ region, is_Some (Includes dist !! region) ∨ is_Some (Excludes dist !! region) →
       ("    - " +:+ region)
         ∈ ["- " +:+ name +:+ " (Parent: " +:+ parentName +:+ ")"; "  Includes:"]
           ++ ((λ region, "    - " +:+ region) <$> rules_in (Includes dist))
           ++ ["  Excludes:"]
           ++ ((λ region, "    - " +:+ region) <$> rules_in (Excludes dist))
           ++ [""])) as Hlines.
  { intros parentName. split; [set_solver|].
    intros region [Hr|Hr]; apply Hin in Hr.
    - apply elem_of_app. right. apply elem_of_app. left.
      apply list_elem_of_fmap. eauto.
    - apply elem_of_app. right. apply elem_of_app. right.
      apply elem_of_app. right. apply elem_of_app. left.
      apply list_elem_of_fmap. eauto. }
  destruct (Parent dist) as [p|] eqn:Hp.
  - destruct (Hpar _ _ _ Hd Hp) as (parent & Hparent & _).
    assert (deref h p = Ret parent) as -> by (unfold deref; by rewrite Hparent).
    rewrite Hparent.
    cbn [mbind outcome_bind fmap option_fmap option_map default].
    eexists. split; [done|]. apply Hlines.
  - cbn [mbind outcome_bind]. eexists. split; [done|]. apply Hlines.
Qed.

(** X27: the listing is complete: in a well-formed state [ListDistributors]
    never panics; it prints the title first and, for every registered
    distributor, the line with its name and the name of its parent (the word
    none when it has no parent) and one line for each of its include and
    exclude rules. *)
Theorem ListDistributors_shows_all o rules_in h ds :
  pointer_order_ok o →
  (∀ m : gmap string bool, rules_in m ≡ₚ (map_to_list m).*1) →
  well_formed h ds →
  ∃ lines, ListDistributors o rules_in h ds = Ret lines ∧
    head lines = Some "Registered Distributors:" ∧
    ∀ name p dist,
      System.distributors ds !! name = Some p → h !! p = Some dist →
      ("- " +:+ name +:+ " (Parent: "
         +:+ match Parent dist with
             | Some q => default "" (Name <$> h !! q)
             | None => "none"
             end +:+ ")") ∈ lines ∧
      (∀ region, is_Some (Includes dist !! region) ∨ is_Some (Excludes dist !! region) →
                 ("    - " +:+ region) ∈ lines).
Proof.
  intros Ho Hrules Hwf. unfold ListDistributors.
  assert (∀ entries,
    (∀ name d, (name, d) ∈ entries → System.distributors ds !! name = Some d) →
    ∃ lines, list_distributors rules_in h entries = Ret lines ∧
      ∀ name p dist, (name, p) ∈ entries → h !! p = Some dist →
        ("- " +:+ name +:+ " (Parent: "
           +:+ match Parent dist with
               | Some q => default "" (Name <$> h !! q)
               | None => "none"
               end +:+ ")") ∈ lines ∧
        (∀ region, is_Some (Includes dist !! region) ∨ is_Some (Excludes dist !! region) →
                   ("    - " +:+ region) ∈ lines)) as Hloop.
  { induction entries as [|[name d] entries IH]; intros Hreg.
    - exists []. split; [done|]. intros ? ? ? Hin. by apply elem_of_nil in Hin.
    - destruct Hwf as (Hnames & Hrest).
      destruct (Hnames name d) as (dist & Hd & _); [apply Hreg; set_solver|].
      destruct (list_distributor_lines rules_in h ds name d dist Hrules
                  (conj Hnames Hrest) Hd) as (lines & Hlines & Hhead & Hregions).
      destruct IH as (rest & Hrest' & Hall); [intros n q ?; apply Hreg; set_solver|].
      cbn [list_distributors]. rewrite Hlines. cbn [mbind outcome_bind].
      rewrite Hrest'. cbn [mbind outcome_bind].
      eexists. split; [done|].
      intros name' p' dist' [[= -> ->]|Hin]%elem_of_cons Hp'.
      + simplify_eq. split; [set_solver|]. intros region Hr.
        apply elem_of_app. left. by apply Hregions.
      + destruct (Hall _ _ _ Hin Hp') as [? Hr']. split; [set_solver|].
        intros region Hr. apply elem_of_app. right. by apply Hr'. }
  destruct (Hloop (o (System.distributors ds))) as (lines & -> & Hall).
  { intros name d Hin. rewrite (Ho _) in Hin. by apply elem_of_map_to_list. }
  cbn [mbind outcome_bind]. eexists. split; [done|]. split; [done|].
  intros name p dist Hp Hd.
  destruct (Hall name p dist) as [Hline Hregions]; [|done|].
  { rewrite (Ho _). by apply elem_of_map_to_list. }
  split; [set_solver|]. intros region Hr. apply elem_of_cons. right. by apply Hregions.
Qed.

Lemma ListDistributors_shows_all_witness :
  ∃ lines, ListDistributors pointers_reversed (λ m, (map_to_list m).*1)
             ruled_heap ruled_ds = Ret lines ∧
    head lines = Some "Registered Distributors:" ∧
    "- KID (Parent: ROOT)" ∈ lines ∧ "    - SFO-CA-US" ∈ lines.
Proof.
  destruct (ListDistributors_shows_all pointers_reversed (λ m, (map_to_list m).*1)
              ruled_heap ruled_ds pointers_reversed_ok (λ m, reflexivity _)
              ruled_well_formed) as (lines & Hrun & Hhead & Hall).
  exists lines. split; [exact Hrun|]. split; [exact Hhead|].
  destruct (Hall "KID" 1%nat _ eq_refl eq_refl) as [Hline Hregions].
  split; [exact Hline|]. apply Hregions. right. exists true. vm_compute. reflexivity.
Defined.
